(** * Brevis example circuits: matching, aggregation, assertion and output

    A shallow embedding of the application circuits under [examples/] and of
    the SDK operations they call.  A circuit's [Define] is a computation in a
    small monad that threads the public output buffer and may fail; the
    buffer written so far survives a failure, so that "nothing was emitted
    before the failure" is a statement about the order of the calls in
    [Define] and not about the monad. *)

From Stdlib Require Import Ascii String.
From stdpp Require Import base numbers list vector strings.

Set Default Proof Using "Type".
Local Open Scope N_scope.

(** ** Numeric domain *)

Module Sdk.

(** [sdk.Uint248], [sdk.Uint32] and [sdk.Bytes32] are unsigned; the width is
    enforced by the operations (checked addition, output encoding), not by
    the carrier. *)
Definition Uint248 := N.
Definition Uint32 := N.
Definition Bytes32 := N.
Definition byte := N.
Definition Buffer := list byte.

(** The numeric width of aggregates. *)
Definition width : N := 248.
Definition limit (w : N) : N := 2 ^ w.

(** The error taxonomy (spec section 7). *)
Inductive Error :=
  | PatternMismatch
  | CapacityMismatch
  | Overflow
  | ThresholdUnmet
  | IndexOutOfRange.

#[global] Instance Error_eq_dec : EqDecision Error.
Proof. solve_decision. Defined.

Inductive result (A : Type) :=
  | Ok (a : A)
  | Fail (e : Error).
Arguments Ok {A} a.
Arguments Fail {A} e.

(** ** The circuit monad: output buffer passing with failure *)

Definition Circuit (A : Type) : Type := Buffer → result A * Buffer.

Definition ret {A} (a : A) : Circuit A := λ b, (Ok a, b).
Definition fail {A} (e : Error) : Circuit A := λ b, (Fail e, b).
Definition bind {A B} (m : Circuit A) (f : A → Circuit B) : Circuit B :=
  λ b, match m b with
       | (Ok a, b') => f a b'
       | (Fail e, b') => (Fail e, b')
       end.
Definition emit (bs : list byte) : Circuit unit := λ b, (Ok tt, b ++ bs).

#[global] Instance circuit_ret : MRet Circuit := @ret.
#[global] Instance circuit_bind : MBind Circuit := λ A B f m, bind m f.

Definition succeeds {A} (r : result A * Buffer) : Prop :=
  ∃ a out, r = (Ok a, out).
Definition fails {A} (r : result A * Buffer) : Prop :=
  ∃ e out, r = (Fail e, out).

(** ** Evidence records *)

(** [sdk.LogField]: one tracked field of a receipt log. *)
Record LogField := mkLogField {
  Contract : Uint248;
  LogPos : Uint32;
  EventID : Uint248;
  IsTopic : Uint248;
  Index : Uint248;
  Value : Bytes32;
}.

(** [sdk.Receipt]: at most four tracked fields per receipt. *)
Definition NumMaxLogFields : nat := 4.
Record Receipt := mkReceipt {
  BlockNum : Uint32;
  Fields : vec LogField NumMaxLogFields;
}.

(** [sdk.StorageSlot]. *)
Record StorageSlot := mkStorageSlot {
  sBlockNum : Uint32;
  sContract : Uint248;
  Slot : Bytes32;
  sValue : Bytes32;
}.

(** [sdk.DataInput]: the batches handed to [Define]. *)
Record DataInput := mkDataInput {
  Receipts : list Receipt;
  StorageSlots : list StorageSlot;
}.

(** ** Uint248 API *)

Definition ConstUint248 (n : N) : Uint248 := n.
Definition ParseEventID (h : N) : Uint248 := h.

(** Modelled from the spec: the SDK package is not among the sources.  The
    Pattern Matcher is "field-by-field equality ... combined with logical
    AND"; a predicate value is true exactly when it is 1. *)
Definition IsEqual (a b : Uint248) : Uint248 := if decide (a = b) then 1 else 0.
Definition IsZero (a : Uint248) : Uint248 := if decide (a = 0) then 1 else 0.
Definition And (xs : list Uint248) : Uint248 :=
  if forallb (λ x, bool_decide (x = 1)) xs then 1 else 0.

(** Modelled from the spec: "an explicit OR combinator over two otherwise-
    independent sub-patterns" (section 4.1). *)
Definition Or (xs : list Uint248) : Uint248 :=
  if existsb (λ x, bool_decide (x = 1)) xs then 1 else 0.

(** Modelled from the spec: extraction "is a pure projection" of the
    record value, read unsigned (section 4.3). *)
Definition ToUint248 (v : N) : Uint248 := v.
Definition ToBytes32 (v : Uint248) : Bytes32 := v.

(** Modelled from the spec: "width-checked addition; overflow must raise an
    error, not wrap" (section 4.4). *)
Definition Add (a b : Uint248) : Circuit Uint248 :=
  if decide (a + b < limit width) then ret (a + b) else fail Overflow.

(** Modelled from the spec: equality of a provenance attribute with its
    declared value; a mismatch is the PatternMismatch failure. *)
Definition AssertIsEqual (a b : N) : Circuit unit :=
  if decide (a = b) then ret tt else fail PatternMismatch.

(** Modelled from the spec: the Threshold Asserter "asserts
    threshold <= observed"; an unmet bound is the ThresholdUnmet failure
    (sections 4.5 and 7). *)
Definition AssertIsLessOrEqual (a b : Uint248) : Circuit unit :=
  if decide (a ≤ b) then ret tt else fail ThresholdUnmet.

(** ** Data streams *)

Definition DataStream (T : Type) := list T.
Definition NewDataStream {T} (raw : list T) : DataStream T := raw.

(** Go indexing: an index outside the slice aborts. *)
Definition GetUnderlying {T} (ds : DataStream T) (i : nat) : Circuit T :=
  match ds !! i with
  | Some x => ret x
  | None => fail IndexOutOfRange
  end.

(** Modelled from the spec: the Batch Validator "asserts
    Matcher(record_i, pattern_i) is true for every i", "a single conjunctive
    fold over the batch" (sections 4.2 and 9). *)
Definition AssertEach {T} (ds : DataStream T) (f : T → Uint248) : Circuit unit :=
  if forallb (λ r, bool_decide (f r = 1)) ds then ret tt else fail PatternMismatch.

Definition Map {T} (ds : DataStream T) (f : T → Uint248) : DataStream Uint248 :=
  fmap (M:=list) f ds.

(** Modelled from the spec: the Aggregator's [sum], accumulated left to
    right with the checked addition. *)
Fixpoint sum_from (acc : Uint248) (xs : list Uint248) : Circuit Uint248 :=
  match xs with
  | [] => ret acc
  | x :: xs' => acc' ← Add acc x; sum_from acc' xs'
  end.
Definition Sum (ds : DataStream Uint248) : Circuit Uint248 := sum_from 0 ds.

(** Modelled from the spec: [count] is "the batch's fixed size". *)
Definition Count {T} (ds : DataStream T) : Uint248 := N.of_nat (length ds).

(** ** Output encoding *)

(** Big-endian bytes of [v] in a slot of [n] bytes. *)
Fixpoint be_bytes (n : nat) (v : N) : list byte :=
  match n with
  | O => []
  | S k => be_bytes k (v / 256) ++ [v mod 256]
  end.

Definition be_value (bs : list byte) : N :=
  fold_left (λ acc b, acc * 256 + b) bs 0.

Definition slot_bytes (bits : N) : nat := N.to_nat (bits / 8).

(** Modelled from the spec: each value occupies "a fixed-size big-endian
    slot sized to its declared width"; "No value may exceed its declared
    width (must fail cleanly, not truncate)" (section 4.6). *)
Definition OutputUint (bits : N) (v : Uint248) : Circuit unit :=
  if decide (v < limit bits) then emit (be_bytes (slot_bytes bits) v)
  else fail Overflow.
Definition OutputAddress (v : Uint248) : Circuit unit := OutputUint 160 v.

(** ** Applications and their host *)

(** The part of [sdk.CircuitAPI] whose behaviour neither the sources nor the
    spec fix: the storage-key hash, and subtraction, which may fail or
    return any value. *)
Record CircuitAPI := mkCircuitAPI {
  SlotOfStructFieldInMapping : N → N → Bytes32 → Bytes32;
  Sub : Uint248 → Uint248 → result Uint248;
}.

Definition lift {A} (r : result A) : Circuit A := λ b, (r, b).

(** [sdk.AppCircuit]. *)
Class AppCircuit (C : Type) := {
  Allocate : C → nat * nat * nat;
  Define : C → CircuitAPI → DataInput → Circuit unit;
}.

(** Modelled from the spec: "supplied batch size differs from declared
    capacity - fatal" (section 7); "capacity is exact, not a maximum"
    (section 5). *)
Definition check_capacity `{AppCircuit C} (c : C) (inp : DataInput) : Circuit unit :=
  let '(maxReceipts, maxSlots, _) := Allocate c in
  if decide (length (Receipts inp) = maxReceipts ∧ length (StorageSlots inp) = maxSlots)
  then ret tt else fail CapacityMismatch.

(** One invocation: the batches are loaded, [Define] runs on an empty
    buffer.  The pair holds the outcome and whatever was emitted. *)
Definition run `{AppCircuit C} (c : C) (api : CircuitAPI) (inp : DataInput)
    : result unit * Buffer :=
  (check_capacity c inp;; Define c api inp) [].

(** Modelled from the spec: "a failed invocation yields no output buffer at
    all" (section 7). *)
Definition invoke `{AppCircuit C} (c : C) (api : CircuitAPI) (inp : DataInput)
    : option Buffer :=
  match run c api inp with
  | (Ok _, out) => Some out
  | (Fail _, _) => None
  end.

End Sdk.

Import Sdk.

(** ** examples/dex-volume/sushiswap *)

Module sushiswap.

Record AppCircuit := mkAppCircuit {
  UserAddr : Uint248;
  MinVolume : Uint248;
}.

Definition EventIdSwap : Uint248 :=
  ParseEventID 0xd78ad95fa46c994b6551d0da85fc275fe613ce37657fb8d5e3d130840159d822.
Definition USDCWETHPair : Uint248 :=
  ConstUint248 0x397FF1542f962076d0BFE58eA045FfA2d347ACa0.

(** The predicate handed to [sdk.AssertEach]. *)
Definition predicate (c : AppCircuit) (r : Receipt) : Uint248 :=
  let contractMatches := And [
    IsEqual (Contract (Fields r !!! 0%fin)) USDCWETHPair;
    IsEqual (Contract (Fields r !!! 1%fin)) USDCWETHPair ] in
  let eventIdMatches := And [
    IsEqual (EventID (Fields r !!! 0%fin)) EventIdSwap;
    IsEqual (EventID (Fields r !!! 1%fin)) EventIdSwap ] in
  let fieldIndicesCorrect := And [
    IsZero (IsTopic (Fields r !!! 0%fin));
    IsEqual (Index (Fields r !!! 0%fin)) (ConstUint248 3);
    IsTopic (Fields r !!! 1%fin);
    IsEqual (Index (Fields r !!! 1%fin)) (ConstUint248 2) ] in
  let userMatches := IsEqual (ToUint248 (Value (Fields r !!! 1%fin))) (UserAddr c) in
  And [contractMatches; eventIdMatches; fieldIndicesCorrect; userMatches].

Definition extract (r : Receipt) : Uint248 := ToUint248 (Value (Fields r !!! 0%fin)).

#[global] Instance app : Sdk.AppCircuit AppCircuit := {
  Allocate _ := (50, 0, 0)%nat;
  Define c api inp :=
    let receipts := NewDataStream (Receipts inp) in
    AssertEach receipts (predicate c);;
    let volumes := Map receipts extract in
    totalVolume ← Sum volumes;
    AssertIsLessOrEqual (MinVolume c) totalVolume;;
    let swapCount := Count receipts in
    OutputAddress (UserAddr c);;
    OutputUint 248 totalVolume;;
    OutputUint 248 (MinVolume c);;
    OutputUint 64 swapCount;
}.

End sushiswap.

(** ** examples/defi-lending/compound *)

Module compound.

Record AppCircuit := mkAppCircuit {
  UserAddr : Uint248;
  MinSupply : Uint248;
}.

Definition EventIdMint : Uint248 :=
  ParseEventID 0x4c209b5fc8ad50758f13e2e1088ba56a560dff690a1c6fef26394f4c03821c4f.
Definition cUSDCAddress : Uint248 :=
  ConstUint248 0x39AA39c021dfbaE8faC545936693aC917d5E7563.

Definition predicate (c : AppCircuit) (r : Receipt) : Uint248 :=
  let contractMatches := And [
    IsEqual (Contract (Fields r !!! 0%fin)) cUSDCAddress;
    IsEqual (Contract (Fields r !!! 1%fin)) cUSDCAddress ] in
  let eventIdMatches := And [
    IsEqual (EventID (Fields r !!! 0%fin)) EventIdMint;
    IsEqual (EventID (Fields r !!! 1%fin)) EventIdMint ] in
  let fieldIndicesCorrect := And [
    IsZero (IsTopic (Fields r !!! 0%fin));
    IsEqual (Index (Fields r !!! 0%fin)) (ConstUint248 1);
    IsZero (IsTopic (Fields r !!! 1%fin));
    IsEqual (Index (Fields r !!! 1%fin)) (ConstUint248 0) ] in
  let userMatches := IsEqual (ToUint248 (Value (Fields r !!! 1%fin))) (UserAddr c) in
  And [contractMatches; eventIdMatches; fieldIndicesCorrect; userMatches].

Definition extract (r : Receipt) : Uint248 := ToUint248 (Value (Fields r !!! 0%fin)).

#[global] Instance app : Sdk.AppCircuit AppCircuit := {
  Allocate _ := (30, 0, 0)%nat;
  Define c api inp :=
    let receipts := NewDataStream (Receipts inp) in
    AssertEach receipts (predicate c);;
    let supplies := Map receipts extract in
    totalSupply ← Sum supplies;
    AssertIsLessOrEqual (MinSupply c) totalSupply;;
    let mintCount := Count receipts in
    OutputAddress (UserAddr c);;
    OutputUint 248 totalSupply;;
    OutputUint 248 (MinSupply c);;
    OutputUint 64 mintCount;
}.

End compound.

(** ** examples/dex-volume/uniswap-v2-bidirectional *)

Module uniswapv2bidirectional.

Record AppCircuit := mkAppCircuit {
  UserAddr : Uint248;
  MinVolumeIn : Uint248;
  MinVolumeOut : Uint248;
}.

Definition EventIdSwap : Uint248 :=
  ParseEventID 0xd78ad95fa46c994b6551d0da85fc275fe613ce37657fb8d5e3d130840159d822.
Definition USDCWETHPair : Uint248 :=
  ConstUint248 0xB4e16d0168e52d35CaCD2c6185b44281Ec28C9Dc.

Definition contractMatches (r : Receipt) : Uint248 := And [
  IsEqual (Contract (Fields r !!! 0%fin)) USDCWETHPair;
  IsEqual (Contract (Fields r !!! 1%fin)) USDCWETHPair;
  IsEqual (Contract (Fields r !!! 2%fin)) USDCWETHPair;
  IsEqual (Contract (Fields r !!! 3%fin)) USDCWETHPair ].

Definition eventIdMatches (r : Receipt) : Uint248 := And [
  IsEqual (EventID (Fields r !!! 0%fin)) EventIdSwap;
  IsEqual (EventID (Fields r !!! 1%fin)) EventIdSwap;
  IsEqual (EventID (Fields r !!! 2%fin)) EventIdSwap;
  IsEqual (EventID (Fields r !!! 3%fin)) EventIdSwap ].

Definition fieldIndicesCorrect (r : Receipt) : Uint248 := And [
  IsZero (IsTopic (Fields r !!! 0%fin));
  IsEqual (Index (Fields r !!! 0%fin)) (ConstUint248 1);
  IsZero (IsTopic (Fields r !!! 1%fin));
  IsEqual (Index (Fields r !!! 1%fin)) (ConstUint248 3);
  IsTopic (Fields r !!! 2%fin);
  IsEqual (Index (Fields r !!! 2%fin)) (ConstUint248 1);
  IsTopic (Fields r !!! 3%fin);
  IsEqual (Index (Fields r !!! 3%fin)) (ConstUint248 2) ].

Definition predicate (c : AppCircuit) (r : Receipt) : Uint248 :=
  let senderMatches := IsEqual (ToUint248 (Value (Fields r !!! 2%fin))) (UserAddr c) in
  let recipientMatches := IsEqual (ToUint248 (Value (Fields r !!! 3%fin))) (UserAddr c) in
  let userMatches := Or [senderMatches; recipientMatches] in
  And [contractMatches r; eventIdMatches r; fieldIndicesCorrect r; userMatches].

Definition amount1In (r : Receipt) : Uint248 := ToUint248 (Value (Fields r !!! 0%fin)).
Definition amount1Out (r : Receipt) : Uint248 := ToUint248 (Value (Fields r !!! 1%fin)).

#[global] Instance app : Sdk.AppCircuit AppCircuit := {
  Allocate _ := (50, 0, 0)%nat;
  Define c api inp :=
    let receipts := NewDataStream (Receipts inp) in
    AssertEach receipts (predicate c);;
    let volumesIn := Map receipts amount1In in
    let volumesOut := Map receipts amount1Out in
    totalVolumeIn ← Sum volumesIn;
    totalVolumeOut ← Sum volumesOut;
    AssertIsLessOrEqual (MinVolumeIn c) totalVolumeIn;;
    AssertIsLessOrEqual (MinVolumeOut c) totalVolumeOut;;
    totalVolume ← Add totalVolumeIn totalVolumeOut;
    let swapCount := Count receipts in
    OutputAddress (UserAddr c);;
    OutputUint 248 totalVolumeIn;;
    OutputUint 248 totalVolumeOut;;
    OutputUint 248 totalVolume;;
    OutputUint 64 swapCount;
}.

End uniswapv2bidirectional.

(** ** examples/cross-chain/layerzero-message *)

Module layerzeromessage.

Record AppCircuit := mkAppCircuit {
  UserAddr : Uint248;
  MinMessageCount : Uint248;
}.

Definition EventIdPayloadStored : Uint248 :=
  ParseEventID 0xe9bded5f24a4168e4f3bf44e00298c993b22376aad8c58c7dda9718a54cbea82.
Definition EndpointEthereum : Uint248 :=
  ConstUint248 0x66A71Dcef29A0fFBDBE3c6a460a3B5BC225Cd675.

Definition predicate (r : Receipt) : Uint248 :=
  let contractMatches := IsEqual (Contract (Fields r !!! 0%fin)) EndpointEthereum in
  let eventIdMatches := IsEqual (EventID (Fields r !!! 0%fin)) EventIdPayloadStored in
  let fieldIndexCorrect := And [
    IsZero (IsTopic (Fields r !!! 0%fin));
    IsEqual (Index (Fields r !!! 0%fin)) (ConstUint248 2) ] in
  And [contractMatches; eventIdMatches; fieldIndexCorrect].

#[global] Instance app : Sdk.AppCircuit AppCircuit := {
  Allocate _ := (50, 0, 0)%nat;
  Define c api inp :=
    let receipts := NewDataStream (Receipts inp) in
    AssertEach receipts predicate;;
    let messageCount := Count receipts in
    AssertIsLessOrEqual (MinMessageCount c) messageCount;;
    OutputAddress (UserAddr c);;
    OutputUint 64 messageCount;;
    OutputUint 64 (MinMessageCount c);
}.

End layerzeromessage.

(** ** examples/tokenHolder *)

Module tokenHolder.

Record AppCircuit := mkAppCircuit {
  HolderAddr : Uint248;
}.

Definition USDCTokenAddr : Uint248 :=
  ConstUint248 0xA0b86991c6218b36c1d19D4a2e9Eb0cE3606eB48.
Definition minimumBalance : Uint248 := ConstUint248 100000000.

#[global] Instance app : Sdk.AppCircuit AppCircuit := {
  Allocate _ := (0, 1, 0)%nat;
  Define c api inp :=
    let slots := NewDataStream (StorageSlots inp) in
    slot ← GetUnderlying slots 0;
    AssertIsEqual (sContract slot) USDCTokenAddr;;
    let balanceSlot := SlotOfStructFieldInMapping api 9 0 (ToBytes32 (HolderAddr c)) in
    AssertIsEqual (Slot slot) balanceSlot;;
    let balance := ToUint248 (sValue slot) in
    AssertIsLessOrEqual minimumBalance balance;;
    OutputAddress (HolderAddr c);;
    OutputUint 248 balance;;
    OutputUint 64 (ToUint248 (sBlockNum slot));
}.

End tokenHolder.

(** ** dex-volume/uniswap-v2-twap *)

Module uniswapv2twap.

Record AppCircuit := mkAppCircuit {
  PairAddr : Uint248;
  MinPrice : Uint248;
  MaxPrice : Uint248;
  StartBlock : Uint248;
  EndBlock : Uint248;
}.

Definition predicate (c : AppCircuit) (s : StorageSlot) : Uint248 :=
  let contractMatches := IsEqual (sContract s) (PairAddr c) in
  contractMatches.

Definition extract (s : StorageSlot) : Uint248 := ToUint248 (sValue s).

#[global] Instance app : Sdk.AppCircuit AppCircuit := {
  Allocate _ := (0, 2, 0)%nat;
  Define c api inp :=
    let slots := NewDataStream (StorageSlots inp) in
    AssertEach slots (predicate c);;
    let prices := Map slots extract in
    totalPrices ← Sum prices;
    let slotCount := Count slots in
    AssertIsEqual slotCount (ConstUint248 2);;
    AssertIsLessOrEqual (MinPrice c) totalPrices;;
    AssertIsLessOrEqual totalPrices (MaxPrice c);;
    blockRange ← lift (Sub api (EndBlock c) (StartBlock c));
    OutputAddress (PairAddr c);;
    OutputUint 248 totalPrices;;
    OutputUint 248 (MinPrice c);;
    OutputUint 248 (MaxPrice c);;
    OutputUint 64 blockRange;
}.

End uniswapv2twap.

(** ** examples/nftOwnership *)

Module nftOwnership.

Record AppCircuit := mkAppCircuit {
  NFTContractAddr : Uint248;
  OwnerAddr : Uint248;
  TokenID : Uint248;
}.

#[global] Instance app : Sdk.AppCircuit AppCircuit := {
  Allocate _ := (1, 0, 0)%nat;
  Define c api inp :=
    let receipts := NewDataStream (Receipts inp) in
    receipt ← GetUnderlying receipts 0;
    AssertIsEqual (Contract (Fields receipt !!! 0%fin)) (NFTContractAddr c);;
    AssertIsEqual (IsTopic (Fields receipt !!! 0%fin)) (ConstUint248 1);;
    AssertIsEqual (Index (Fields receipt !!! 0%fin)) (ConstUint248 2);;
    AssertIsEqual (ToUint248 (Value (Fields receipt !!! 0%fin))) (OwnerAddr c);;
    AssertIsEqual (Contract (Fields receipt !!! 1%fin)) (NFTContractAddr c);;
    AssertIsEqual (IsTopic (Fields receipt !!! 1%fin)) (ConstUint248 1);;
    AssertIsEqual (Index (Fields receipt !!! 1%fin)) (ConstUint248 3);;
    AssertIsEqual (ToUint248 (Value (Fields receipt !!! 1%fin))) (TokenID c);;
    AssertIsEqual (LogPos (Fields receipt !!! 0%fin)) (LogPos (Fields receipt !!! 1%fin));;
    OutputAddress (OwnerAddr c);;
    OutputAddress (NFTContractAddr c);;
    OutputUint 248 (TokenID c);;
    OutputUint 64 (ToUint248 (BlockNum receipt));
}.

End nftOwnership.

(** ** examples/defi-lending/aave *)

Module aave.

Record AppCircuit := mkAppCircuit {
  UserAddr : Uint248;
  MinDeposit : Uint248;
}.

Definition EventIdSupply : Uint248 :=
  ParseEventID 0x2b627736bca15cd5381dcf80b0bf11fd197d01a037c52b927a881a10fb73ba61.
Definition PoolAddress : Uint248 :=
  ConstUint248 0x87870Bca3F3fD6335C3F4ce8392D69350B4fA4E2.

Definition predicate (c : AppCircuit) (r : Receipt) : Uint248 :=
  let contractMatches := And [
    IsEqual (Contract (Fields r !!! 0%fin)) PoolAddress;
    IsEqual (Contract (Fields r !!! 1%fin)) PoolAddress ] in
  let eventIdMatches := And [
    IsEqual (EventID (Fields r !!! 0%fin)) EventIdSupply;
    IsEqual (EventID (Fields r !!! 1%fin)) EventIdSupply ] in
  let fieldIndicesCorrect := And [
    IsZero (IsTopic (Fields r !!! 0%fin));
    IsEqual (Index (Fields r !!! 0%fin)) (ConstUint248 1);
    IsZero (IsTopic (Fields r !!! 1%fin));
    IsEqual (Index (Fields r !!! 1%fin)) (ConstUint248 0) ] in
  let userMatches := IsEqual (ToUint248 (Value (Fields r !!! 1%fin))) (UserAddr c) in
  And [contractMatches; eventIdMatches; fieldIndicesCorrect; userMatches].

Definition extract (r : Receipt) : Uint248 := ToUint248 (Value (Fields r !!! 0%fin)).

#[global] Instance app : Sdk.AppCircuit AppCircuit := {
  Allocate _ := (30, 0, 0)%nat;
  Define c api inp :=
    let receipts := NewDataStream (Receipts inp) in
    AssertEach receipts (predicate c);;
    let deposits := Map receipts extract in
    totalDeposits ← Sum deposits;
    AssertIsLessOrEqual (MinDeposit c) totalDeposits;;
    let supplyCount := Count receipts in
    OutputAddress (UserAddr c);;
    OutputUint 248 totalDeposits;;
    OutputUint 248 (MinDeposit c);;
    OutputUint 64 supplyCount;
}.

End aave.

(** ** dex-volume/balancer-weighted *)

Module balancerweighted.

Record AppCircuit := mkAppCircuit {
  UserAddr : Uint248;
  MinVolume : Uint248;
}.

Definition EventIdSwap : Uint248 :=
  ParseEventID 0x2170c741c41531aec20e7c107c24eecfdd15e69c9bb0a8dd37b1840b9e0b207b.
Definition VaultAddress : Uint248 :=
  ConstUint248 0xBA12222222228d8Ba445958a75a0704d566BF2C8.

Definition predicate (r : Receipt) : Uint248 :=
  let contractMatches := And [
    IsEqual (Contract (Fields r !!! 0%fin)) VaultAddress;
    IsEqual (Contract (Fields r !!! 1%fin)) VaultAddress ] in
  let eventIdMatches := And [
    IsEqual (EventID (Fields r !!! 0%fin)) EventIdSwap;
    IsEqual (EventID (Fields r !!! 1%fin)) EventIdSwap ] in
  let fieldIndicesCorrect := And [
    IsZero (IsTopic (Fields r !!! 0%fin));
    IsEqual (Index (Fields r !!! 0%fin)) (ConstUint248 1);
    IsTopic (Fields r !!! 1%fin);
    IsEqual (Index (Fields r !!! 1%fin)) (ConstUint248 3) ] in
  And [contractMatches; eventIdMatches; fieldIndicesCorrect].

Definition extract (r : Receipt) : Uint248 := ToUint248 (Value (Fields r !!! 0%fin)).

#[global] Instance app : Sdk.AppCircuit AppCircuit := {
  Allocate _ := (50, 0, 0)%nat;
  Define c api inp :=
    let receipts := NewDataStream (Receipts inp) in
    AssertEach receipts predicate;;
    let volumes := Map receipts extract in
    totalVolume ← Sum volumes;
    AssertIsLessOrEqual (MinVolume c) totalVolume;;
    let swapCount := Count receipts in
    OutputAddress (UserAddr c);;
    OutputUint 248 totalVolume;;
    OutputUint 248 (MinVolume c);;
    OutputUint 64 swapCount;
}.

End balancerweighted.

(** ** dex-volume/sushiswap-lp *)

Module sushiswaplp.

Record AppCircuit := mkAppCircuit {
  UserAddr : Uint248;
  MinLiquidityV0 : Uint248;
  MinLiquidityV1 : Uint248;
}.

Definition EventIdMint : Uint248 :=
  ParseEventID 0x4c209b5fc8ad50758f13e2e1088ba56a560dff690a1c6fef26394f4c03821c4f.
Definition USDCWETHPair : Uint248 :=
  ConstUint248 0x397FF1542f962076d0BFE58eA045FfA2d347ACa0.

Definition predicate (c : AppCircuit) (r : Receipt) : Uint248 :=
  let contractMatches := And [
    IsEqual (Contract (Fields r !!! 0%fin)) USDCWETHPair;
    IsEqual (Contract (Fields r !!! 1%fin)) USDCWETHPair;
    IsEqual (Contract (Fields r !!! 2%fin)) USDCWETHPair ] in
  let eventIdMatches := And [
    IsEqual (EventID (Fields r !!! 0%fin)) EventIdMint;
    IsEqual (EventID (Fields r !!! 1%fin)) EventIdMint;
    IsEqual (EventID (Fields r !!! 2%fin)) EventIdMint ] in
  let fieldIndicesCorrect := And [
    IsTopic (Fields r !!! 0%fin);
    IsEqual (Index (Fields r !!! 0%fin)) (ConstUint248 1);
    IsZero (IsTopic (Fields r !!! 1%fin));
    IsEqual (Index (Fields r !!! 1%fin)) (ConstUint248 0);
    IsZero (IsTopic (Fields r !!! 2%fin));
    IsEqual (Index (Fields r !!! 2%fin)) (ConstUint248 1) ] in
  let userMatches := IsEqual (ToUint248 (Value (Fields r !!! 0%fin))) (UserAddr c) in
  And [contractMatches; eventIdMatches; fieldIndicesCorrect; userMatches].

Definition amount0 (r : Receipt) : Uint248 := ToUint248 (Value (Fields r !!! 1%fin)).
Definition amount1 (r : Receipt) : Uint248 := ToUint248 (Value (Fields r !!! 2%fin)).

#[global] Instance app : Sdk.AppCircuit AppCircuit := {
  Allocate _ := (20, 0, 0)%nat;
  Define c api inp :=
    let receipts := NewDataStream (Receipts inp) in
    AssertEach receipts (predicate c);;
    let liquidityToken0 := Map receipts amount0 in
    let liquidityToken1 := Map receipts amount1 in
    totalLiquidityToken0 ← Sum liquidityToken0;
    totalLiquidityToken1 ← Sum liquidityToken1;
    AssertIsLessOrEqual (MinLiquidityV0 c) totalLiquidityToken0;;
    AssertIsLessOrEqual (MinLiquidityV1 c) totalLiquidityToken1;;
    let mintCount := Count receipts in
    OutputAddress (UserAddr c);;
    OutputUint 248 totalLiquidityToken0;;
    OutputUint 248 totalLiquidityToken1;;
    OutputUint 64 mintCount;
}.

End sushiswaplp.

(** ** cross-chain/multi-chain-balance *)

Module multichainbalance.

Record AppCircuit := mkAppCircuit {
  HolderAddr : Uint248;
  MinTotalBalance : Uint248;
}.

Definition USDCEthereum : Uint248 :=
  ConstUint248 0xA0b86991c6218b36c1d19D4a2e9Eb0cE3606eB48.
Definition USDC_BSC : Uint248 :=
  ConstUint248 0x8AC76a51cc950d9822D68b83fE1Ad97B32Cd580d.

#[global] Instance app : Sdk.AppCircuit AppCircuit := {
  Allocate _ := (0, 2, 0)%nat;
  Define c api inp :=
    let slots := NewDataStream (StorageSlots inp) in
    slot0 ← GetUnderlying slots 0;
    slot1 ← GetUnderlying slots 1;
    AssertIsEqual (sContract slot0) USDCEthereum;;
    AssertIsEqual (sContract slot1) USDC_BSC;;
    let balanceSlotEth := SlotOfStructFieldInMapping api 9 0 (ToBytes32 (HolderAddr c)) in
    let balanceSlotBsc := SlotOfStructFieldInMapping api 9 0 (ToBytes32 (HolderAddr c)) in
    AssertIsEqual (Slot slot0) balanceSlotEth;;
    AssertIsEqual (Slot slot1) balanceSlotBsc;;
    let balanceEthereum := ToUint248 (sValue slot0) in
    let balanceBSC := ToUint248 (sValue slot1) in
    totalBalance ← Add balanceEthereum balanceBSC;
    AssertIsLessOrEqual (MinTotalBalance c) totalBalance;;
    OutputAddress (HolderAddr c);;
    OutputUint 248 balanceEthereum;;
    OutputUint 248 balanceBSC;;
    OutputUint 248 totalBalance;;
    OutputUint 248 (MinTotalBalance c);
}.

End multichainbalance.

(** ** The gateway query test program: error classification helpers *)

Module querytest.

(** A Go string is a sequence of bytes. *)
Definition gostring := list ascii.

Definition str (s : string) : gostring := list_ascii_of_string s.

(** [calculateBalanceSlot]: the arguments are ignored and the zero hash is
    returned. *)
Definition calculateBalanceSlot (addr : N) (mappingSlot : N) : Bytes32 := 0.

(** One step of the loop of [toLower]: bytes 'A'..'Z' are moved up by 32. *)
Definition lowerByte (c : ascii) : ascii :=
  if (N_of_ascii "A" <=? N_of_ascii c) && (N_of_ascii c <=? N_of_ascii "Z")
  then ascii_of_N (N_of_ascii c + 32)
  else c.

Definition toLower (s : gostring) : gostring := lowerByte <$> s.

(** [contains]: both strings are lowered, then every start position [i]
    with [i <= len(s) - len(substr)] is tried in order; the difference is a
    signed integer, so no position is tried when [substr] is the longer. *)
Definition contains (s substr : gostring) : bool :=
  let s := toLower s in
  let substr := toLower substr in
  let last : Z := (Z.of_nat (length s) - Z.of_nat (length substr))%Z in
  existsb (λ i, bool_decide (take (length substr) (drop i s) = substr))
          (seq 0 (Z.to_nat (last + 1))).

Definition containsAny (s : gostring) (substrs : list gostring) : bool :=
  existsb (contains s) substrs.

(** The branch [analyzeError] takes, named after the heading it prints. *)
Inductive ErrorKind :=
  | AuthenticationError
  | NetworkConnectionError
  | RateLimitError
  | RpcBlockchainError
  | UnknownError.

Definition authWords : list gostring :=
  [str "auth"; str "unauthorized"; str "forbidden"; str "permission"].
Definition networkWords : list gostring :=
  [str "unavailable"; str "connection"; str "network"].
Definition rateWords : list gostring :=
  [str "rate limit"; str "quota"; str "throttle"].
Definition rpcWords : list gostring :=
  [str "rpc"; str "block"; str "chain"].

Definition analyzeError (errMsg : gostring) : ErrorKind :=
  if containsAny errMsg authWords then AuthenticationError
  else if containsAny errMsg networkWords then NetworkConnectionError
  else if containsAny errMsg rateWords then RateLimitError
  else if containsAny errMsg rpcWords then RpcBlockchainError
  else UnknownError.

(** An upper-case ASCII letter. *)
Definition isUpper (c : ascii) : Prop :=
  N_of_ascii "A" ≤ N_of_ascii c ≤ N_of_ascii "Z".

(** The keyword [w] occurs in [msg], ignoring the case of [msg]. *)
Definition occurs (w msg : gostring) : Prop :=
  ∃ pre post, toLower msg = pre ++ w ++ post.

End querytest.

(** ** Specification-side notions *)

(** The exact mathematical sum of a sequence of scalars. *)
Definition exact_sum (xs : list N) : N := foldr N.add 0 xs.

(** Decoding a buffer at fixed offsets, one big-endian slot per declared
    width, in declaration order. *)
Fixpoint decode (widths : list N) (buf : Buffer) : list N :=
  match widths with
  | [] => []
  | w :: ws =>
      be_value (take (slot_bytes w) buf) :: decode ws (drop (slot_bytes w) buf)
  end.

(** The Output Encoder on an ordered list of (width, value) pairs: one
    [OutputUint] call per value, in order. *)
Fixpoint outputs (vals : list (N * Uint248)) : Circuit unit :=
  match vals with
  | [] => mret tt
  | (w, v) :: rest => OutputUint w v;; outputs rest
  end.

(** The layout the encoder commits to. *)
Definition layout (vals : list (N * Uint248)) : Buffer :=
  concat ((λ p, be_bytes (slot_bytes p.1) p.2) <$> vals).

Definition declared_width (w : N) : Prop := w = 64 ∨ w = 160 ∨ w = 248.

(** The declared Pattern of the SushiSwap volume circuit, read off the
    comments of its predicate: provenance of the two tracked fields, and the
    value-dependent conjunct. *)
Definition sushiswap_provenance (r : Receipt) : Prop :=
  Contract (Fields r !!! 0%fin) = sushiswap.USDCWETHPair ∧
  Contract (Fields r !!! 1%fin) = sushiswap.USDCWETHPair ∧
  EventID (Fields r !!! 0%fin) = sushiswap.EventIdSwap ∧
  EventID (Fields r !!! 1%fin) = sushiswap.EventIdSwap ∧
  IsTopic (Fields r !!! 0%fin) = 0 ∧ Index (Fields r !!! 0%fin) = 3 ∧
  IsTopic (Fields r !!! 1%fin) = 1 ∧ Index (Fields r !!! 1%fin) = 2.

Definition sushiswap_user (c : sushiswap.AppCircuit) (r : Receipt) : Prop :=
  Value (Fields r !!! 1%fin) = sushiswap.UserAddr c.

(** The declared Pattern of the Compound supply circuit. *)
Definition compound_provenance (r : Receipt) : Prop :=
  Contract (Fields r !!! 0%fin) = compound.cUSDCAddress ∧
  Contract (Fields r !!! 1%fin) = compound.cUSDCAddress ∧
  EventID (Fields r !!! 0%fin) = compound.EventIdMint ∧
  EventID (Fields r !!! 1%fin) = compound.EventIdMint ∧
  IsTopic (Fields r !!! 0%fin) = 0 ∧ Index (Fields r !!! 0%fin) = 1 ∧
  IsTopic (Fields r !!! 1%fin) = 0 ∧ Index (Fields r !!! 1%fin) = 0.

Definition compound_user (c : compound.AppCircuit) (r : Receipt) : Prop :=
  Value (Fields r !!! 1%fin) = compound.UserAddr c.

(** A receipt with the given field 0 and field 1; the two unused field
    slots are zero. *)
Definition zeroField : LogField := mkLogField 0 0 0 0 0 0.
Definition receipt2 (blk : Uint32) (f0 f1 : LogField) : Receipt :=
  mkReceipt blk [# f0; f1; zeroField; zeroField].

(** Any total instance of the unspecified API operations. *)
Definition someAPI : CircuitAPI :=
  mkCircuitAPI (λ slot off key, key + slot + off) (λ x y, Ok (x - y)).

(** Receipts that carry the declared provenance of each circuit. *)
Definition sushiswap_receipt (amount recipient : Bytes32) : Receipt :=
  receipt2 0
    (mkLogField sushiswap.USDCWETHPair 7 sushiswap.EventIdSwap 0 3 amount)
    (mkLogField sushiswap.USDCWETHPair 7 sushiswap.EventIdSwap 1 2 recipient).

Definition compound_receipt (selector : Uint248) (amount minter : Bytes32) : Receipt :=
  receipt2 0
    (mkLogField compound.cUSDCAddress 7 selector 0 1 amount)
    (mkLogField compound.cUSDCAddress 7 selector 0 0 minter).

(** The shape shared by the volume and supply circuits: validate, extract,
    sum, assert the threshold, count, encode. *)
Definition threshold_pipeline (ds : DataStream Receipt)
    (pred : Receipt → Uint248) (extract : Receipt → Uint248)
    (user threshold : Uint248) : Circuit unit :=
  AssertEach ds pred;;
  total ← Sum (Map ds extract);
  AssertIsLessOrEqual threshold total;;
  OutputAddress user;;
  OutputUint 248 total;;
  OutputUint 248 threshold;;
  OutputUint 64 (Count ds).

(** The per-field conjuncts of the NFT ownership circuit: each of the two
    tracked fields, taken on its own, carries the declared contract, topic
    flag, index and value. *)
Definition nft_fields_match (c : nftOwnership.AppCircuit) (r : Receipt) : Prop :=
  Contract (Fields r !!! 0%fin) = nftOwnership.NFTContractAddr c ∧
  IsTopic (Fields r !!! 0%fin) = 1 ∧
  Index (Fields r !!! 0%fin) = 2 ∧
  Value (Fields r !!! 0%fin) = nftOwnership.OwnerAddr c ∧
  Contract (Fields r !!! 1%fin) = nftOwnership.NFTContractAddr c ∧
  IsTopic (Fields r !!! 1%fin) = 1 ∧
  Index (Fields r !!! 1%fin) = 3 ∧
  Value (Fields r !!! 1%fin) = nftOwnership.TokenID c.

(** A receipt carrying the four tracked fields of a swap: the two amounts,
    the sender and the recipient. *)
Definition swap_receipt (amountIn amountOut sender recipient : Bytes32) : Receipt :=
  let pair := uniswapv2bidirectional.USDCWETHPair in
  let ev := uniswapv2bidirectional.EventIdSwap in
  mkReceipt 0 [# mkLogField pair 7 ev 0 1 amountIn; mkLogField pair 7 ev 0 3 amountOut;
                 mkLogField pair 7 ev 1 1 sender; mkLogField pair 7 ev 1 2 recipient].

(** The provenance conjuncts of the bidirectional circuit, field by field. *)
Definition bidirectional_provenance (r : Receipt) : Prop :=
  (Contract (Fields r !!! 0%fin) = uniswapv2bidirectional.USDCWETHPair ∧
   Contract (Fields r !!! 1%fin) = uniswapv2bidirectional.USDCWETHPair ∧
   Contract (Fields r !!! 2%fin) = uniswapv2bidirectional.USDCWETHPair ∧
   Contract (Fields r !!! 3%fin) = uniswapv2bidirectional.USDCWETHPair) ∧
  (EventID (Fields r !!! 0%fin) = uniswapv2bidirectional.EventIdSwap ∧
   EventID (Fields r !!! 1%fin) = uniswapv2bidirectional.EventIdSwap ∧
   EventID (Fields r !!! 2%fin) = uniswapv2bidirectional.EventIdSwap ∧
   EventID (Fields r !!! 3%fin) = uniswapv2bidirectional.EventIdSwap) ∧
  (IsTopic (Fields r !!! 0%fin) = 0 ∧ Index (Fields r !!! 0%fin) = 1 ∧
   IsTopic (Fields r !!! 1%fin) = 0 ∧ Index (Fields r !!! 1%fin) = 3 ∧
   IsTopic (Fields r !!! 2%fin) = 1 ∧ Index (Fields r !!! 2%fin) = 1 ∧
   IsTopic (Fields r !!! 3%fin) = 1 ∧ Index (Fields r !!! 3%fin) = 2).

Definition sender (r : Receipt) : Uint248 := ToUint248 (Value (Fields r !!! 2%fin)).
Definition recipient (r : Receipt) : Uint248 := ToUint248 (Value (Fields r !!! 3%fin)).

(** The pattern of the Aave deposit circuit: both tracked fields come from
    the Pool's Supply event, field 0 is data word 1 (the amount), field 1 is
    data word 0 (the depositing user), and that user is the one verified. *)
Definition aave_pattern (c : aave.AppCircuit) (r : Receipt) : Prop :=
  Contract (Fields r !!! 0%fin) = aave.PoolAddress ∧
  Contract (Fields r !!! 1%fin) = aave.PoolAddress ∧
  EventID (Fields r !!! 0%fin) = aave.EventIdSupply ∧
  EventID (Fields r !!! 1%fin) = aave.EventIdSupply ∧
  IsTopic (Fields r !!! 0%fin) = 0 ∧ Index (Fields r !!! 0%fin) = 1 ∧
  IsTopic (Fields r !!! 1%fin) = 0 ∧ Index (Fields r !!! 1%fin) = 0 ∧
  Value (Fields r !!! 1%fin) = aave.UserAddr c.

(** Two receipts agree on everything the NFT ownership circuit reads: the
    block number and, for fields 0 and 1, contract, log position, topic
    flag, index and value. *)
Definition nft_agree (r r' : Receipt) : Prop :=
  BlockNum r = BlockNum r' ∧
  ∀ i : fin NumMaxLogFields, (i = 0%fin ∨ i = 1%fin) →
    Contract (Fields r !!! i) = Contract (Fields r' !!! i) ∧
    LogPos (Fields r !!! i) = LogPos (Fields r' !!! i) ∧
    IsTopic (Fields r !!! i) = IsTopic (Fields r' !!! i) ∧
    Index (Fields r !!! i) = Index (Fields r' !!! i) ∧
    Value (Fields r !!! i) = Value (Fields r' !!! i).

(** What the TWAP circuit reads of a storage slot. *)
Definition twap_view (s : StorageSlot) : Uint248 * Bytes32 := (sContract s, sValue s).

(** * Properties of the SDK operations *)

Section Primitives.

Lemma IsEqual_true (a b : Uint248) : IsEqual a b = 1 ↔ a = b.
Proof. unfold IsEqual. case_decide; split; intros; done. Qed.

Lemma IsZero_true (a : Uint248) : IsZero a = 1 ↔ a = 0.
Proof. unfold IsZero. case_decide; split; intros; done. Qed.

Lemma And_true (xs : list Uint248) : And xs = 1 ↔ Forall (λ x, x = 1) xs.
Proof.
  unfold And.
  destruct (forallb (λ x, bool_decide (x = 1)) xs) eqn:E.
  - split; [intros _|done].
    apply Forall_forall. intros x Hx.
    rewrite forallb_forall in E.
    eapply bool_decide_eq_true_1, E. by apply list_elem_of_In.
  - split; [done|]. intros HF. exfalso.
    assert (forallb (λ x, bool_decide (x = 1)) xs = true) as E'; [|congruence].
    apply forallb_forall. intros x Hx. apply bool_decide_eq_true_2.
    rewrite Forall_forall in HF. by apply HF, list_elem_of_In.
Qed.

Lemma And_bool (xs : list Uint248) : And xs = 1 ∨ And xs = 0.
Proof. unfold And. destruct (forallb (λ x, bool_decide (x = 1)) xs); auto. Qed.

Lemma Or_true (xs : list Uint248) : Or xs = 1 ↔ Exists (λ x, x = 1) xs.
Proof.
  unfold Or.
  destruct (existsb (λ x, bool_decide (x = 1)) xs) eqn:E.
  - split; [intros _|done].
    apply existsb_exists in E as (x & Hx & Hb).
    apply Exists_exists. exists x. split; [by apply list_elem_of_In|].
    by apply bool_decide_eq_true_1 in Hb.
  - split; [done|]. intros (x & Hx & H1)%Exists_exists. exfalso.
    assert (existsb (λ x, bool_decide (x = 1)) xs = true) as E'; [|congruence].
    apply existsb_exists. exists x. split; [by apply list_elem_of_In|].
    by apply bool_decide_eq_true_2.
Qed.

(** The Batch Validator is all-or-fail and leaves the buffer alone. *)
Lemma AssertEach_ok {T} (ds : DataStream T) (f : T → Uint248) (b : Buffer) :
  Forall (λ r, f r = 1) ds → AssertEach ds f b = (Ok tt, b).
Proof.
  intros HF. unfold AssertEach.
  replace (forallb (λ r, bool_decide (f r = 1)) ds) with true; [done|].
  symmetry. apply forallb_forall. intros x Hx. apply bool_decide_eq_true_2.
  rewrite Forall_forall in HF. by apply HF, list_elem_of_In.
Qed.

Lemma AssertEach_fail {T} (ds : DataStream T) (f : T → Uint248) (b : Buffer) :
  Exists (λ r, f r ≠ 1) ds → AssertEach ds f b = (Fail PatternMismatch, b).
Proof.
  intros (x & Hx & Hne)%Exists_exists. unfold AssertEach.
  destruct (forallb (λ r, bool_decide (f r = 1)) ds) eqn:E; [|done]. exfalso.
  rewrite forallb_forall in E.
  eapply Hne, bool_decide_eq_true_1, E. by apply list_elem_of_In.
Qed.

Lemma AssertEach_cases {T} (ds : DataStream T) (f : T → Uint248) (b : Buffer) :
  (Forall (λ r, f r = 1) ds ∧ AssertEach ds f b = (Ok tt, b)) ∨
  (Exists (λ r, f r ≠ 1) ds ∧ AssertEach ds f b = (Fail PatternMismatch, b)).
Proof.
  destruct (decide (Forall (λ r, f r = 1) ds)) as [HF|HF].
  - left. split; [done|]. by apply AssertEach_ok.
  - right. apply not_Forall_Exists in HF; [|intros x; apply _].
    split; [done|]. by apply AssertEach_fail.
Qed.

(** Bind, unfolded at a known first step. *)
Lemma bind_ok {A B} (m : Circuit A) (f : A → Circuit B) a b b' :
  m b = (Ok a, b') → (m ≫= f) b = f a b'.
Proof. intros E. unfold mbind, circuit_bind, bind. by rewrite E. Qed.

Lemma bind_fail {A B} (m : Circuit A) (f : A → Circuit B) e b b' :
  m b = (Fail e, b') → (m ≫= f) b = (Fail e, b').
Proof. intros E. unfold mbind, circuit_bind, bind. by rewrite E. Qed.

(** Checked addition and the checked sum. *)
Lemma Add_ok (a x : Uint248) (b : Buffer) :
  a + x < limit width → Add a x b = (Ok (a + x), b).
Proof. intros H. unfold Add. by case_decide. Qed.

Lemma Add_overflow (a x : Uint248) (b : Buffer) :
  limit width ≤ a + x → Add a x b = (Fail Overflow, b).
Proof. intros H. unfold Add. case_decide; [lia|done]. Qed.

Lemma sum_from_ok (xs : list Uint248) (acc : Uint248) (b : Buffer) :
  acc + exact_sum xs < limit width →
  sum_from acc xs b = (Ok (acc + exact_sum xs), b).
Proof.
  revert acc. induction xs as [|x xs IH]; intros acc H; simpl in *.
  - by rewrite N.add_0_r.
  - rewrite (bind_ok _ _ (acc + x) b b); [|apply Add_ok; lia].
    rewrite IH; [|lia]. by rewrite N.add_assoc.
Qed.

Lemma sum_from_overflow (xs : list Uint248) (acc : Uint248) (b : Buffer) :
  acc < limit width →
  limit width ≤ acc + exact_sum xs →
  sum_from acc xs b = (Fail Overflow, b).
Proof.
  revert acc. induction xs as [|x xs IH]; intros acc Hacc H; simpl in *.
  - lia.
  - destruct (decide (acc + x < limit width)) as [Hlt|Hge].
    + rewrite (bind_ok _ _ (acc + x) b b); [|by apply Add_ok].
      apply IH; [done|lia].
    + apply bind_fail, Add_overflow. lia.
Qed.

Lemma limit_pos (w : N) : 0 < limit w.
Proof. unfold limit. apply N.neq_0_lt_0, N.pow_nonzero. lia. Qed.

Lemma Sum_ok (xs : list Uint248) (b : Buffer) :
  exact_sum xs < limit width → Sum xs b = (Ok (exact_sum xs), b).
Proof. intros H. unfold Sum. by rewrite sum_from_ok. Qed.

Lemma Sum_overflow (xs : list Uint248) (b : Buffer) :
  limit width ≤ exact_sum xs → Sum xs b = (Fail Overflow, b).
Proof. intros H. apply sum_from_overflow; [apply limit_pos|done]. Qed.

Lemma Sum_cases (xs : list Uint248) (b : Buffer) :
  (exact_sum xs < limit width ∧ Sum xs b = (Ok (exact_sum xs), b)) ∨
  (limit width ≤ exact_sum xs ∧ Sum xs b = (Fail Overflow, b)).
Proof.
  destruct (decide (exact_sum xs < limit width)).
  - left. split; [done|]. by apply Sum_ok.
  - right. split; [lia|]. apply Sum_overflow. lia.
Qed.

Lemma exact_sum_perm (xs ys : list N) : xs ≡ₚ ys → exact_sum xs = exact_sum ys.
Proof.
  induction 1 as [|x xs ys _ IH|x y xs|xs ys zs _ IH1 _ IH2]; simpl.
  - done.
  - by rewrite IH.
  - lia.
  - by rewrite IH1.
Qed.

(** Big-endian slots. *)
Lemma length_be_bytes (n : nat) (v : N) : length (be_bytes n v) = n.
Proof.
  revert v. induction n as [|n IH]; intros v; simpl; [done|].
  rewrite length_app, IH. simpl. lia.
Qed.

Lemma be_value_snoc (bs : list byte) (x : byte) :
  be_value (bs ++ [x]) = be_value bs * 256 + x.
Proof. unfold be_value. by rewrite fold_left_app. Qed.

Lemma be_value_be_bytes (n : nat) (v : N) :
  be_value (be_bytes n v) = v mod 256 ^ N.of_nat n.
Proof.
  revert v. induction n as [|n IH]; intros v.
  - simpl. by rewrite N.mod_1_r.
  - cbn [be_bytes]. rewrite be_value_snoc, IH.
    rewrite Nat2N.inj_succ, N.pow_succ_r'.
    rewrite (N.Div0.mod_mul_r v 256). lia.
Qed.

Lemma slot_limit (w : N) : declared_width w → 256 ^ N.of_nat (slot_bytes w) = limit w.
Proof. by intros [-> | [-> | ->]]. Qed.

Lemma be_roundtrip (w : N) (v : N) :
  declared_width w → v < limit w → be_value (be_bytes (slot_bytes w) v) = v.
Proof.
  intros Hw Hv. rewrite be_value_be_bytes, slot_limit by done.
  by apply N.mod_small.
Qed.

Lemma OutputUint_ok (w : N) (v : Uint248) (b : Buffer) :
  v < limit w → OutputUint w v b = (Ok tt, b ++ be_bytes (slot_bytes w) v).
Proof. intros H. unfold OutputUint. by case_decide. Qed.

Lemma OutputUint_overflow (w : N) (v : Uint248) (b : Buffer) :
  limit w ≤ v → OutputUint w v b = (Fail Overflow, b).
Proof. intros H. unfold OutputUint. case_decide; [lia|done]. Qed.

Lemma outputs_ok (vals : list (N * Uint248)) (b : Buffer) :
  Forall (λ p, p.2 < limit p.1) vals →
  outputs vals b = (Ok tt, b ++ layout vals).
Proof.
  revert b. induction vals as [|[w v] vals IH]; intros b HF.
  - simpl. unfold layout. simpl. by rewrite app_nil_r.
  - apply Forall_cons in HF as [Hv HF]. simpl in Hv.
    cbn [outputs].
    rewrite (bind_ok _ _ tt b (b ++ be_bytes (slot_bytes w) v));
      [|by apply OutputUint_ok].
    rewrite IH by done. unfold layout. simpl. by rewrite app_assoc.
Qed.

Lemma decode_layout (vals : list (N * Uint248)) (rest : Buffer) :
  Forall (λ p, declared_width p.1 ∧ p.2 < limit p.1) vals →
  decode (vals.*1) (layout vals ++ rest) = vals.*2.
Proof.
  induction vals as [|[w v] vals IH]; intros HF; [done|].
  apply Forall_cons in HF as [[Hw Hv] HF]. simpl in Hw, Hv.
  unfold layout in *. simpl. rewrite <- app_assoc.
  rewrite take_app_length', drop_app_length' by (by rewrite length_be_bytes).
  rewrite be_roundtrip by done. f_equal. by apply IH.
Qed.

End Primitives.

(** * Properties of the circuits *)

Tactic Notation "step_ok" constr(E) := rewrite (bind_ok _ _ _ _ _ E).
Tactic Notation "step_ok" constr(E) "in" hyp(H) := rewrite (bind_ok _ _ _ _ _ E) in H.
Tactic Notation "step_fail" constr(E) := rewrite (bind_fail _ _ _ _ _ E).
Tactic Notation "step_fail" constr(E) "in" hyp(H) :=
  rewrite (bind_fail _ _ _ _ _ E) in H.

Section Assertions.

Lemma AssertIsLessOrEqual_ok (a x : Uint248) (b : Buffer) :
  a ≤ x → AssertIsLessOrEqual a x b = (Ok tt, b).
Proof. intros H. unfold AssertIsLessOrEqual. by case_decide. Qed.

Lemma AssertIsLessOrEqual_fail (a x : Uint248) (b : Buffer) :
  x < a → AssertIsLessOrEqual a x b = (Fail ThresholdUnmet, b).
Proof. intros H. unfold AssertIsLessOrEqual. case_decide; [lia|done]. Qed.

Lemma AssertIsEqual_ok (a x : N) (b : Buffer) :
  a = x → AssertIsEqual a x b = (Ok tt, b).
Proof. intros H. unfold AssertIsEqual. by case_decide. Qed.

Lemma AssertIsEqual_fail (a x : N) (b : Buffer) :
  a ≠ x → AssertIsEqual a x b = (Fail PatternMismatch, b).
Proof. intros H. unfold AssertIsEqual. by case_decide. Qed.

Lemma AssertEach_perm {T} (ds ds' : DataStream T) (f : T → Uint248) (b : Buffer) :
  ds ≡ₚ ds' → AssertEach ds f b = AssertEach ds' f b.
Proof.
  intros Hp.
  destruct (AssertEach_cases ds f b) as [[HF ->]|[HE ->]]; symmetry.
  - apply AssertEach_ok. by rewrite <- Hp.
  - apply AssertEach_fail. by rewrite <- Hp.
Qed.

Lemma Sum_perm (xs ys : list Uint248) (b : Buffer) :
  xs ≡ₚ ys → Sum xs b = Sum ys b.
Proof.
  intros Hp.
  destruct (Sum_cases xs b) as [[H ->]|[H ->]]; symmetry.
  - rewrite (exact_sum_perm _ _ Hp) in *. by apply Sum_ok.
  - rewrite (exact_sum_perm _ _ Hp) in *. by apply Sum_overflow.
Qed.

Lemma Count_perm {T} (ds ds' : DataStream T) : ds ≡ₚ ds' → Count ds = Count ds'.
Proof. intros Hp. unfold Count. by rewrite Hp. Qed.

Lemma check_capacity_ok `{AppCircuit C} (c : C) (inp : DataInput) (b : Buffer) :
  length (Receipts inp) = (Allocate c).1.1 →
  length (StorageSlots inp) = (Allocate c).1.2 →
  check_capacity c inp b = (Ok tt, b).
Proof.
  intros H1 H2. unfold check_capacity.
  destruct (Allocate c) as [[mr ms] mt]. simpl in *.
  case_decide as Hd; [done|]. exfalso. by apply Hd.
Qed.

Lemma check_capacity_fail `{AppCircuit C} (c : C) (inp : DataInput) (b : Buffer) :
  length (Receipts inp) ≠ (Allocate c).1.1 ∨
  length (StorageSlots inp) ≠ (Allocate c).1.2 →
  check_capacity c inp b = (Fail CapacityMismatch, b).
Proof.
  intros H1. unfold check_capacity.
  destruct (Allocate c) as [[mr ms] mt]. simpl in *.
  case_decide as Hd; [|done]. exfalso. destruct Hd, H1; done.
Qed.

End Assertions.

(** ** The aggregator *)

(** C2.  A sequence of extracted scalars whose exact sum does not fit in 248
    bits makes [Sum] fail with [Overflow]; a sequence whose exact sum fits
    yields exactly that sum.  No outcome is a wrapped value: a returned sum
    is always the exact one.  The same holds of the single checked addition
    [Add] that combines the two directional totals, and a validated batch
    of the SushiSwap circuit whose volumes overflow makes [Define] fail. *)
Theorem Sum_no_silent_overflow (xs : list Uint248) (b : Buffer) :
  (limit width ≤ exact_sum xs → Sum xs b = (Fail Overflow, b)) ∧
  (exact_sum xs < limit width → Sum xs b = (Ok (exact_sum xs), b)) ∧
  (∀ s out, Sum xs b = (Ok s, out) → s = exact_sum xs ∧ s < 2 ^ 248) ∧
  (∀ x y, (limit width ≤ x + y → Add x y b = (Fail Overflow, b)) ∧
          (x + y < limit width → Add x y b = (Ok (x + y), b))) ∧
  (∀ (c : sushiswap.AppCircuit) api inp,
     Forall (λ r, sushiswap.predicate c r = 1) (Receipts inp) →
     limit width ≤ exact_sum (Map (NewDataStream (Receipts inp)) sushiswap.extract) →
     Define c api inp b = (Fail Overflow, b)).
Proof.
  split; [apply Sum_overflow|]. split; [apply Sum_ok|]. split; [|split].
  - intros s out E.
    destruct (Sum_cases xs b) as [[H E']|[H E']]; rewrite E' in E; [|done].
    by inversion E.
  - intros x y. split; [apply Add_overflow|apply Add_ok].
  - intros c api inp HF Ho. cbn [Define sushiswap.app]. unfold NewDataStream in *.
    step_ok (AssertEach_ok _ _ b HF).
    by apply bind_fail, Sum_overflow.
Qed.

Lemma Sum_no_silent_overflow_witness :
  Sum [2 ^ 247; 2 ^ 247] [] = (Fail Overflow, []) ∧
  Sum [2 ^ 247; 2 ^ 247 - 1] [] = (Ok (2 ^ 248 - 1), []).
Proof.
  split.
  - apply (proj1 (Sum_no_silent_overflow [2 ^ 247; 2 ^ 247] [])).
    by vm_compute.
  - apply (proj1 (proj2 (Sum_no_silent_overflow [2 ^ 247; 2 ^ 247 - 1] []))).
    by vm_compute.
Defined.

(** C6.  Permuting the records of a batch changes neither the sum of the
    extracted scalars nor, for the SushiSwap volume circuit, anything else
    about the invocation: validation, sum, count and output agree. *)
Theorem Sum_order_independent
    (c : sushiswap.AppCircuit) (api : CircuitAPI) (inp inp' : DataInput) (b : Buffer) :
  Receipts inp ≡ₚ Receipts inp' →
  Sum (Map (NewDataStream (Receipts inp)) sushiswap.extract) b
    = Sum (Map (NewDataStream (Receipts inp')) sushiswap.extract) b ∧
  Define c api inp b = Define c api inp' b.
Proof.
  intros Hp. unfold NewDataStream, Map.
  assert (sushiswap.extract <$> Receipts inp ≡ₚ sushiswap.extract <$> Receipts inp')
    as Hm by (by rewrite Hp).
  split; [by apply Sum_perm|].
  cbn [Define sushiswap.app]. unfold NewDataStream, Map.
  rewrite (Count_perm _ _ Hp).
  unfold mbind, circuit_bind, bind.
  rewrite (AssertEach_perm _ _ _ b Hp).
  destruct (AssertEach (Receipts inp') (sushiswap.predicate c) b) as [[[]|e] b1]; [|done].
  cbv beta. by rewrite (Sum_perm _ _ b1 Hm).
Qed.

Lemma Sum_order_independent_witness :
  Sum [3; 1; 2] [] = Sum [1; 2; 3] [].
Proof.
  pose (r v := mkReceipt 0 [# mkLogField 0 0 0 0 0 v; mkLogField 0 0 0 0 0 0;
                            mkLogField 0 0 0 0 0 0; mkLogField 0 0 0 0 0 0]).
  refine (proj1 (Sum_order_independent (sushiswap.mkAppCircuit 0 0)
           (mkCircuitAPI (λ _ _ x, x) (λ x y, Ok (x - y)))
           (mkDataInput [r 3; r 1; r 2] []) (mkDataInput [r 1; r 2; r 3] []) [] _)).
  simpl. exact (perm_trans (perm_swap (r 1) (r 3) [r 2])
                 (perm_skip (r 1) (perm_swap (r 2) (r 3) []))).
Defined.

(** ** The pattern matcher and the batch validator *)

Section Matching.

Lemma sushiswap_predicate_true (c : sushiswap.AppCircuit) (r : Receipt) :
  sushiswap.predicate c r = 1 ↔ sushiswap_provenance r ∧ sushiswap_user c r.
Proof.
  unfold sushiswap.predicate, sushiswap_provenance, sushiswap_user.
  rewrite And_true, !Forall_cons, Forall_nil.
  rewrite !And_true, !Forall_cons, !Forall_nil, !IsEqual_true, !IsZero_true.
  unfold ConstUint248, ToUint248. tauto.
Qed.

Lemma compound_predicate_true (c : compound.AppCircuit) (r : Receipt) :
  compound.predicate c r = 1 ↔ compound_provenance r ∧ compound_user c r.
Proof.
  unfold compound.predicate, compound_provenance, compound_user.
  rewrite And_true, !Forall_cons, Forall_nil.
  rewrite !And_true, !Forall_cons, !Forall_nil, !IsEqual_true, !IsZero_true.
  unfold ConstUint248, ToUint248. tauto.
Qed.

End Matching.

(** C1, as stated, fails: fifty SushiSwap receipts whose provenance fields
    all equal the declared Pattern, but whose recipient is not the user
    being verified, are rejected by the Batch Validator. *)
Lemma provenance_alone_not_sufficient :
  let c := sushiswap.mkAppCircuit 0xCAFE 0 in
  let batch := replicate 50 (sushiswap_receipt 1 0xBEEF) in
  Forall sushiswap_provenance batch ∧
  AssertEach (NewDataStream batch) (sushiswap.predicate c) [] = (Fail PatternMismatch, []) ∧
  run c someAPI (mkDataInput batch []) = (Fail PatternMismatch, []).
Proof.
  intros c batch. split; [|split].
  - apply Forall_replicate. by vm_compute.
  - by vm_compute.
  - by vm_compute.
Qed.

(** C1, amended.  A batch in which every record's provenance fields equal
    the declared Pattern and whose value-dependent conjunct holds (the
    recipient, resp. the minter, is the user being verified) passes the
    Batch Validator; a batch with at least one record that mismatches in any
    conjunct - in particular in any provenance field - fails as a whole,
    however many other records match. *)
Theorem batch_validator_exact
    (cs : sushiswap.AppCircuit) (cc : compound.AppCircuit)
    (batch : list Receipt) (b : Buffer) :
  (Forall (λ r, sushiswap_provenance r ∧ sushiswap_user cs r) batch →
     AssertEach (NewDataStream batch) (sushiswap.predicate cs) b = (Ok tt, b)) ∧
  (Exists (λ r, ¬ sushiswap_provenance r ∨ ¬ sushiswap_user cs r) batch →
     AssertEach (NewDataStream batch) (sushiswap.predicate cs) b
       = (Fail PatternMismatch, b)) ∧
  (Forall (λ r, compound_provenance r ∧ compound_user cc r) batch →
     AssertEach (NewDataStream batch) (compound.predicate cc) b = (Ok tt, b)) ∧
  (Exists (λ r, ¬ compound_provenance r ∨ ¬ compound_user cc r) batch →
     AssertEach (NewDataStream batch) (compound.predicate cc) b
       = (Fail PatternMismatch, b)).
Proof.
  unfold NewDataStream. repeat split.
  - intros HF. apply AssertEach_ok.
    eapply Forall_impl; [exact HF|]. intros r Hr. by apply sushiswap_predicate_true.
  - intros HE. apply AssertEach_fail.
    eapply Exists_impl; [exact HE|]. intros r Hr Hp.
    apply sushiswap_predicate_true in Hp. destruct Hp, Hr; done.
  - intros HF. apply AssertEach_ok.
    eapply Forall_impl; [exact HF|]. intros r Hr. by apply compound_predicate_true.
  - intros HE. apply AssertEach_fail.
    eapply Exists_impl; [exact HE|]. intros r Hr Hp.
    apply compound_predicate_true in Hp. destruct Hp, Hr; done.
Qed.

Lemma batch_validator_exact_witness :
  AssertEach (NewDataStream [sushiswap_receipt 5 0xCAFE; sushiswap_receipt 6 0xCAFE])
    (sushiswap.predicate (sushiswap.mkAppCircuit 0xCAFE 0)) [] = (Ok tt, []) ∧
  AssertEach (NewDataStream
      [compound_receipt compound.EventIdMint 5 0xCAFE;
       compound_receipt compound.EventIdMint 6 0xCAFE;
       compound_receipt 0x1234 7 0xCAFE])
    (compound.predicate (compound.mkAppCircuit 0xCAFE 0)) []
    = (Fail PatternMismatch, []).
Proof.
  split.
  - apply (proj1 (batch_validator_exact (sushiswap.mkAppCircuit 0xCAFE 0)
                    (compound.mkAppCircuit 0xCAFE 0)
                    [sushiswap_receipt 5 0xCAFE; sushiswap_receipt 6 0xCAFE] [])).
    repeat constructor.
  - apply (proj2 (proj2 (proj2 (batch_validator_exact (sushiswap.mkAppCircuit 0xCAFE 0)
                    (compound.mkAppCircuit 0xCAFE 0)
                    [compound_receipt compound.EventIdMint 5 0xCAFE;
                     compound_receipt compound.EventIdMint 6 0xCAFE;
                     compound_receipt 0x1234 7 0xCAFE] [])))).
    do 2 apply Exists_cons_tl. apply Exists_cons_hd. left.
    vm_compute. intros H. decompose [and] H. discriminate.
Defined.

(** ** The validate-sum-assert-encode pipeline *)

Section Pipeline.

Lemma sushiswap_define (c : sushiswap.AppCircuit) (api : CircuitAPI) (inp : DataInput) :
  Define c api inp
  = threshold_pipeline (Receipts inp) (sushiswap.predicate c) sushiswap.extract
      (sushiswap.UserAddr c) (sushiswap.MinVolume c).
Proof. reflexivity. Qed.

Lemma compound_define (c : compound.AppCircuit) (api : CircuitAPI) (inp : DataInput) :
  Define c api inp
  = threshold_pipeline (Receipts inp) (compound.predicate c) compound.extract
      (compound.UserAddr c) (compound.MinSupply c).
Proof. reflexivity. Qed.

Variables (ds : DataStream Receipt) (pred extract : Receipt → Uint248).
Variables (user threshold : Uint248) (b : Buffer).

Let total : N := exact_sum (Map ds extract).
Let run_pipeline := threshold_pipeline ds pred extract user threshold b.

Lemma pipeline_mismatch :
  Exists (λ r, pred r ≠ 1) ds → run_pipeline = (Fail PatternMismatch, b).
Proof.
  intros HE. unfold run_pipeline, threshold_pipeline.
  by apply bind_fail, AssertEach_fail.
Qed.

Lemma pipeline_overflow :
  Forall (λ r, pred r = 1) ds → limit width ≤ total →
  run_pipeline = (Fail Overflow, b).
Proof.
  intros HF Ht. unfold run_pipeline, threshold_pipeline.
  step_ok (AssertEach_ok ds pred b HF).
  by apply bind_fail, Sum_overflow.
Qed.

Lemma pipeline_unmet :
  Forall (λ r, pred r = 1) ds → total < limit width → total < threshold →
  run_pipeline = (Fail ThresholdUnmet, b).
Proof.
  intros HF Ht Hm. unfold run_pipeline, threshold_pipeline.
  step_ok (AssertEach_ok ds pred b HF).
  step_ok (Sum_ok _ b Ht).
  by apply bind_fail, AssertIsLessOrEqual_fail.
Qed.

Lemma pipeline_bad_address :
  Forall (λ r, pred r = 1) ds → total < limit width → threshold ≤ total →
  limit 160 ≤ user →
  run_pipeline = (Fail Overflow, b).
Proof.
  intros HF Ht Hm Hu. unfold run_pipeline, threshold_pipeline.
  step_ok (AssertEach_ok ds pred b HF).
  step_ok (Sum_ok _ b Ht).
  step_ok (AssertIsLessOrEqual_ok threshold _ b Hm).
  by apply bind_fail, OutputUint_overflow.
Qed.

Lemma pipeline_ok :
  Forall (λ r, pred r = 1) ds → total < limit width → threshold ≤ total →
  user < limit 160 → Count ds < limit 64 →
  run_pipeline
  = (Ok tt, b ++ layout [(160, user); (248, total); (248, threshold); (64, Count ds)]).
Proof.
  intros HF Ht Hm Hu Hc. unfold run_pipeline, threshold_pipeline.
  step_ok (AssertEach_ok ds pred b HF).
  step_ok (Sum_ok _ b Ht).
  step_ok (AssertIsLessOrEqual_ok threshold _ b Hm).
  unfold OutputAddress.
  step_ok (OutputUint_ok 160 user b Hu).
  step_ok (OutputUint_ok 248 _ (b ++ be_bytes (slot_bytes 160) user) Ht).
  rewrite (bind_ok _ _ tt _ _ (OutputUint_ok 248 threshold _ ltac:(unfold width in *; lia))).
  rewrite OutputUint_ok by done.
  unfold layout. cbn [fmap list_fmap concat fst snd].
  by rewrite app_nil_r, <- !app_assoc.
Qed.

(** Every outcome of the pipeline on a batch of countable size. *)
Lemma pipeline_cases :
  Count ds < limit 64 →
  (Exists (λ r, pred r ≠ 1) ds ∧ run_pipeline = (Fail PatternMismatch, b)) ∨
  (Forall (λ r, pred r = 1) ds ∧ limit width ≤ total ∧
     run_pipeline = (Fail Overflow, b)) ∨
  (Forall (λ r, pred r = 1) ds ∧ total < limit width ∧ total < threshold ∧
     run_pipeline = (Fail ThresholdUnmet, b)) ∨
  (Forall (λ r, pred r = 1) ds ∧ total < limit width ∧ threshold ≤ total ∧
     limit 160 ≤ user ∧ run_pipeline = (Fail Overflow, b)) ∨
  (Forall (λ r, pred r = 1) ds ∧ total < limit width ∧ threshold ≤ total ∧
     user < limit 160 ∧
     run_pipeline
     = (Ok tt, b ++ layout [(160, user); (248, total); (248, threshold); (64, Count ds)])).
Proof.
  intros Hc.
  destruct (decide (Forall (λ r, pred r = 1) ds)) as [HF|HF].
  2: { left. apply not_Forall_Exists in HF; [|intros x; apply _].
       split; [done|]. by apply pipeline_mismatch. }
  right.
  destruct (decide (total < limit width)) as [Ht|Ht].
  2: { left. split; [done|]. split; [lia|]. apply pipeline_overflow; [done|lia]. }
  right.
  destruct (decide (threshold ≤ total)) as [Hm|Hm].
  2: { left. repeat split; [done|done|lia|]. apply pipeline_unmet; [done|done|lia]. }
  right.
  destruct (decide (user < limit 160)) as [Hu|Hu].
  - right. repeat split; [done..|]. by apply pipeline_ok.
  - left. repeat split; [done|done|done|lia|]. apply pipeline_bad_address; [done..|lia].
Qed.

(** Whatever makes the pipeline fail, it fails before anything is emitted. *)
Lemma pipeline_fail_clean (e : Error) (out : Buffer) :
  Count ds < limit 64 → run_pipeline = (Fail e, out) → out = b.
Proof.
  intros Hc E.
  destruct (pipeline_cases Hc) as [[_ E']|[(_&_&E')|[(_&_&_&E')|[(_&_&_&_&E')|(_&_&_&_&E')]]]];
    rewrite E' in E; by inversion E.
Qed.

End Pipeline.

(** ** Whole invocations *)

Section Invocation.

Context `{AppCircuit C}.

Lemma run_capacity_ok (c : C) (api : CircuitAPI) (inp : DataInput) :
  length (Receipts inp) = (Allocate c).1.1 →
  length (StorageSlots inp) = (Allocate c).1.2 →
  run c api inp = Define c api inp [].
Proof.
  intros H1 H2. unfold run.
  by step_ok (check_capacity_ok c inp [] H1 H2).
Qed.

Lemma run_capacity_fail (c : C) (api : CircuitAPI) (inp : DataInput) :
  length (Receipts inp) ≠ (Allocate c).1.1 ∨
  length (StorageSlots inp) ≠ (Allocate c).1.2 →
  run c api inp = (Fail CapacityMismatch, []).
Proof.
  intros H1. unfold run.
  by step_fail (check_capacity_fail c inp [] H1).
Qed.

Lemma run_cases (c : C) (api : CircuitAPI) (inp : DataInput) :
  (length (Receipts inp) = (Allocate c).1.1 ∧
   length (StorageSlots inp) = (Allocate c).1.2 ∧
   run c api inp = Define c api inp []) ∨
  ((length (Receipts inp) ≠ (Allocate c).1.1 ∨
    length (StorageSlots inp) ≠ (Allocate c).1.2) ∧
   run c api inp = (Fail CapacityMismatch, [])).
Proof.
  destruct (decide (length (Receipts inp) = (Allocate c).1.1)) as [H1|H1];
  destruct (decide (length (StorageSlots inp) = (Allocate c).1.2)) as [H2|H2].
  - left. split; [done|]. split; [done|]. by apply run_capacity_ok.
  - right. split; [by right|]. apply run_capacity_fail. by right.
  - right. split; [by left|]. apply run_capacity_fail. by left.
  - right. split; [by left|]. apply run_capacity_fail. by left.
Qed.

Lemma invoke_fail (c : C) (api : CircuitAPI) (inp : DataInput) e out :
  run c api inp = (Fail e, out) → invoke c api inp = None.
Proof. intros E. unfold invoke. by rewrite E. Qed.

Lemma invoke_ok (c : C) (api : CircuitAPI) (inp : DataInput) out :
  run c api inp = (Ok tt, out) → invoke c api inp = Some out.
Proof. intros E. unfold invoke. by rewrite E. Qed.

End Invocation.

Lemma Count_small {T} (ds : DataStream T) (n : nat) :
  length ds = n → (n ≤ 50)%nat → Count ds < limit 64.
Proof.
  intros <- Hn. unfold Count.
  apply N.le_lt_trans with 50; [lia|]. by vm_compute.
Qed.

(** C5.  An invocation of the Compound supply circuit that fails - through
    batch validation, the threshold assertion or anything else - has emitted
    nothing and yields no output buffer, because every assertion of [Define]
    precedes its first output call.  In particular a batch holding a record
    whose selector is not the Mint event id (such as two good records and
    one bad one) fails with nothing emitted, whatever the good records sum
    to. *)
Theorem compound_failure_emits_nothing
    (c : compound.AppCircuit) (api : CircuitAPI) (inp : DataInput) :
  (∀ e out, run c api inp = (Fail e, out) → out = [] ∧ invoke c api inp = None) ∧
  (Exists (λ r, compound.predicate c r ≠ 1) (Receipts inp) →
     Define c api inp [] = (Fail PatternMismatch, [])) ∧
  (Forall (λ r, compound.predicate c r = 1) (Receipts inp) →
   exact_sum (Map (Receipts inp) compound.extract) < limit width →
   exact_sum (Map (Receipts inp) compound.extract) < compound.MinSupply c →
     Define c api inp [] = (Fail ThresholdUnmet, [])) ∧
  (∀ r, r ∈ Receipts inp →
     EventID (Fields r !!! 0%fin) ≠ compound.EventIdMint ∨
     EventID (Fields r !!! 1%fin) ≠ compound.EventIdMint →
     Define c api inp [] = (Fail PatternMismatch, []) ∧
     (∃ e, run c api inp = (Fail e, [])) ∧
     invoke c api inp = None).
Proof.
  assert (∀ e out, run c api inp = (Fail e, out) → out = []) as Hclean.
  { intros e out E.
    destruct (run_cases c api inp) as [(H1 & H2 & E')|[_ E']]; rewrite E' in E.
    - rewrite compound_define in E.
      eapply pipeline_fail_clean; [|exact E].
      eapply Count_small; [exact H1|]. simpl. lia.
    - by inversion E. }
  assert (∀ r, r ∈ Receipts inp →
     EventID (Fields r !!! 0%fin) ≠ compound.EventIdMint ∨
     EventID (Fields r !!! 1%fin) ≠ compound.EventIdMint →
     Define c api inp [] = (Fail PatternMismatch, [])) as Hbad.
  { intros r Hr Hsel. rewrite compound_define. apply pipeline_mismatch.
    apply Exists_exists. exists r. split; [done|].
    intros (Hp & _)%compound_predicate_true.
    destruct Hp as (_ & _ & E0 & E1 & _). destruct Hsel; done. }
  split; [|split; [|split]].
  - intros e out E. split; [by eapply Hclean|]. by eapply invoke_fail.
  - intros HE. rewrite compound_define. by apply pipeline_mismatch.
  - intros HF Ht Hm. rewrite compound_define. by apply pipeline_unmet.
  - intros r Hr Hsel. split; [by eapply Hbad|].
    assert (∃ e, run c api inp = (Fail e, [])) as [e E].
    { destruct (run_cases c api inp) as [(_ & _ & E')|[_ E']]; rewrite E'.
      - exists PatternMismatch. by eapply Hbad.
      - by exists CapacityMismatch. }
    split; [by exists e|]. by eapply invoke_fail.
Qed.

Lemma compound_failure_emits_nothing_witness :
  let c := compound.mkAppCircuit 0xCAFE 10 in
  let inp := mkDataInput
    [compound_receipt compound.EventIdMint 5 0xCAFE;
     compound_receipt compound.EventIdMint 6 0xCAFE;
     compound_receipt 0x1234 7 0xCAFE] [] in
  Define c someAPI inp [] = (Fail PatternMismatch, []) ∧
  (∃ e, run c someAPI inp = (Fail e, [])) ∧
  invoke c someAPI inp = None.
Proof.
  intros c inp.
  apply (proj2 (proj2 (proj2 (compound_failure_emits_nothing c someAPI inp)))
           (compound_receipt 0x1234 7 0xCAFE)).
  - do 2 apply list_elem_of_further. apply list_elem_of_here.
  - left. by vm_compute.
Defined.

(** ** Capacity and count *)

Section TWAP.

Variables (c : uniswapv2twap.AppCircuit) (api : CircuitAPI) (inp : DataInput).
Variable (b : Buffer).

Let slots := StorageSlots inp.
Let total : N := exact_sum (Map slots uniswapv2twap.extract).

(** What a successful run of the TWAP circuit's [Define] establishes. *)
Lemma twap_define_ok_inv (out : Buffer) :
  Define c api inp b = (Ok tt, out) →
  Forall (λ s, uniswapv2twap.predicate c s = 1) slots ∧
  total < limit width ∧
  length slots = 2%nat ∧
  uniswapv2twap.MinPrice c ≤ total ∧ total ≤ uniswapv2twap.MaxPrice c ∧
  ∃ blockRange,
    Sub api (uniswapv2twap.EndBlock c) (uniswapv2twap.StartBlock c) = Ok blockRange ∧
    out = b ++ layout [(160, uniswapv2twap.PairAddr c); (248, total);
                       (248, uniswapv2twap.MinPrice c);
                       (248, uniswapv2twap.MaxPrice c); (64, blockRange)].
Proof.
  cbn [Define uniswapv2twap.app]. unfold NewDataStream. fold slots.
  intros E.
  destruct (AssertEach_cases slots (uniswapv2twap.predicate c) b) as [[HF E1]|[_ E1]].
  2: { by step_fail E1 in E. }
  step_ok E1 in E.
  destruct (Sum_cases (Map slots uniswapv2twap.extract) b) as [[Ht E2]|[_ E2]].
  2: { by step_fail E2 in E. }
  step_ok E2 in E. fold total in E, Ht.
  destruct (decide (Count slots = ConstUint248 2)) as [Hc|Hc].
  2: { by step_fail (AssertIsEqual_fail _ _ b Hc) in E. }
  step_ok (AssertIsEqual_ok _ _ b Hc) in E.
  destruct (decide (uniswapv2twap.MinPrice c ≤ total)) as [Hmin|Hmin].
  2: { by step_fail (AssertIsLessOrEqual_fail (uniswapv2twap.MinPrice c) total b
                       ltac:(lia)) in E. }
  step_ok (AssertIsLessOrEqual_ok _ _ b Hmin) in E.
  destruct (decide (total ≤ uniswapv2twap.MaxPrice c)) as [Hmax|Hmax].
  2: { by step_fail (AssertIsLessOrEqual_fail total (uniswapv2twap.MaxPrice c) b
                       ltac:(lia)) in E. }
  step_ok (AssertIsLessOrEqual_ok _ _ b Hmax) in E.
  destruct (Sub api (uniswapv2twap.EndBlock c) (uniswapv2twap.StartBlock c))
    as [blockRange|e] eqn:ES.
  2: { by rewrite (bind_fail (lift (Fail e)) _ e b b eq_refl) in E. }
  rewrite (bind_ok (lift (Ok blockRange)) _ blockRange b b eq_refl) in E.
  unfold OutputAddress in E.
  repeat split; try done.
  { unfold Count, ConstUint248 in Hc. lia. }
  exists blockRange. split; [done|].
  destruct (decide (uniswapv2twap.PairAddr c < limit 160)) as [H1|H1].
  2: { by step_fail (OutputUint_overflow 160 (uniswapv2twap.PairAddr c) b
                       ltac:(lia)) in E. }
  step_ok (OutputUint_ok 160 _ b H1) in E.
  step_ok (OutputUint_ok 248 _ (b ++ be_bytes (slot_bytes 160) (uniswapv2twap.PairAddr c)) Ht) in E.
  assert (uniswapv2twap.MinPrice c < limit 248) as Hmin'
    by (unfold width in *; lia).
  rewrite (bind_ok _ _ tt _ _ (OutputUint_ok 248 _ _ Hmin')) in E.
  destruct (decide (uniswapv2twap.MaxPrice c < limit 248)) as [H2|H2].
  2: { apply N.nlt_ge in H2.
       by rewrite (bind_fail _ _ _ _ _ (OutputUint_overflow 248 _ _ H2)) in E. }
  rewrite (bind_ok _ _ tt _ _ (OutputUint_ok 248 _ _ H2)) in E.
  destruct (decide (blockRange < limit 64)) as [H3|H3].
  2: { by rewrite OutputUint_overflow in E by lia. }
  rewrite OutputUint_ok in E by done.
  inversion E. unfold layout. cbn [fmap list_fmap concat fst snd].
  by rewrite app_nil_r, <- !app_assoc.
Qed.

End TWAP.

Lemma decode_layout_exact (vals : list (N * Uint248)) :
  Forall (λ p, declared_width p.1 ∧ p.2 < limit p.1) vals →
  decode (vals.*1) (layout vals) = vals.*2.
Proof.
  intros HF. rewrite <- (app_nil_r (layout vals)). by apply decode_layout.
Qed.

(** A successful run of the SushiSwap volume circuit, taken apart. *)
Lemma sushiswap_run_ok_inv (c : sushiswap.AppCircuit) (api : CircuitAPI)
    (inp : DataInput) (out : Buffer) :
  run c api inp = (Ok tt, out) →
  let total := exact_sum (Map (Receipts inp) sushiswap.extract) in
  length (Receipts inp) = 50%nat ∧
  Forall (λ r, sushiswap.predicate c r = 1) (Receipts inp) ∧
  total < limit width ∧ sushiswap.MinVolume c ≤ total ∧
  sushiswap.UserAddr c < limit 160 ∧
  out = layout [(160, sushiswap.UserAddr c); (248, total);
                (248, sushiswap.MinVolume c); (64, 50)].
Proof.
  intros E total.
  destruct (run_cases c api inp) as [(H1 & H2 & E')|[_ E']]; rewrite E' in E;
    [|done].
  simpl in H1. rewrite sushiswap_define in E.
  assert (Count (Receipts inp) = 50) as Hc by (unfold Count; rewrite H1; done).
  destruct (pipeline_cases (Receipts inp) (sushiswap.predicate c) sushiswap.extract
              (sushiswap.UserAddr c) (sushiswap.MinVolume c) [])
    as [[_ E1]|[(_&_&E1)|[(_&_&_&E1)|[(_&_&_&_&E1)|(HF&Ht&Hm&Hu&E1)]]]];
    [rewrite Hc; by vm_compute|rewrite E1 in E; try done..].
  rewrite Hc in E. inversion E. done.
Qed.

(** C8.  The declared capacity is exact.  A successful invocation of the
    SushiSwap volume circuit had all fifty declared receipt slots filled
    with records satisfying the pattern, and the count it computes and
    encodes is fifty; fewer records make the invocation fail.  The TWAP
    circuit, which declares two storage slots, succeeds only on exactly two
    matching slots - its own [Define] asserts the count. *)
Theorem capacity_is_exact
    (c : sushiswap.AppCircuit) (t : uniswapv2twap.AppCircuit)
    (api : CircuitAPI) (inp : DataInput) :
  (∀ out, run c api inp = (Ok tt, out) →
     length (Receipts inp) = (Allocate c).1.1 ∧
     Forall (λ r, sushiswap.predicate c r = 1) (Receipts inp) ∧
     Count (NewDataStream (Receipts inp)) = N.of_nat (Allocate c).1.1 ∧
     decode [160; 248; 248; 64] out !! 3%nat = Some (N.of_nat (Allocate c).1.1)) ∧
  ((length (Receipts inp) < (Allocate c).1.1)%nat →
     run c api inp = (Fail CapacityMismatch, []) ∧ invoke c api inp = None) ∧
  (∀ b out, Define t api inp b = (Ok tt, out) →
     length (StorageSlots inp) = (Allocate t).1.2 ∧
     Forall (λ s, uniswapv2twap.predicate t s = 1) (StorageSlots inp) ∧
     Count (NewDataStream (StorageSlots inp)) = N.of_nat (Allocate t).1.2) ∧
  ((length (StorageSlots inp) < (Allocate t).1.2)%nat →
     run t api inp = (Fail CapacityMismatch, []) ∧ invoke t api inp = None).
Proof.
  split; [|split; [|split]].
  - intros out E.
    destruct (sushiswap_run_ok_inv c api inp out E) as (Hl & HF & Ht & Hm & Hu & ->).
    split; [done|]. split; [done|]. split.
    { unfold Count, NewDataStream. by rewrite Hl. }
    change [160; 248; 248; 64]
      with ([(160, sushiswap.UserAddr c);
             (248, exact_sum (Map (Receipts inp) sushiswap.extract));
             (248, sushiswap.MinVolume c); (64, 50)].*1).
    rewrite decode_layout_exact; [done|].
    repeat apply Forall_cons_2; try apply Forall_nil_2; simpl;
      (split; [unfold declared_width; auto|]); try done.
    unfold width in *. lia.
  - intros Hlt.
    assert (run c api inp = (Fail CapacityMismatch, [])) as E.
    { apply run_capacity_fail. left. lia. }
    split; [done|]. by eapply invoke_fail.
  - intros b out E.
    destruct (twap_define_ok_inv t api inp b out E) as (HF & _ & Hl & _).
    split; [done|]. split; [done|]. unfold Count, NewDataStream. by rewrite Hl.
  - intros Hlt.
    assert (run t api inp = (Fail CapacityMismatch, [])) as E.
    { apply run_capacity_fail. right. lia. }
    split; [done|]. by eapply invoke_fail.
Qed.

Lemma capacity_is_exact_witness :
  let c := sushiswap.mkAppCircuit 0xCAFE 10 in
  let short := mkDataInput (replicate 49 (sushiswap_receipt 1 0xCAFE)) [] in
  let full := mkDataInput (replicate 50 (sushiswap_receipt 1 0xCAFE)) [] in
  (run c someAPI short = (Fail CapacityMismatch, []) ∧ invoke c someAPI short = None) ∧
  (length (Receipts full) = 50%nat ∧
   Forall (λ r, sushiswap.predicate c r = 1) (Receipts full) ∧
   Count (NewDataStream (Receipts full)) = 50 ∧
   decode [160; 248; 248; 64] (run c someAPI full).2 !! 3%nat = Some 50).
Proof.
  intros c short full. split.
  - apply (proj1 (proj2 (capacity_is_exact c (uniswapv2twap.mkAppCircuit 0 0 0 0 0)
                           someAPI short))).
    vm_compute. lia.
  - apply (proj1 (capacity_is_exact c (uniswapv2twap.mkAppCircuit 0 0 0 0 0)
                    someAPI full) (run c someAPI full).2).
    vm_compute. reflexivity.
Defined.

(** ** The LayerZero message circuit *)

Section LayerZero.

Variables (api : CircuitAPI) (inp : DataInput).

(** The run of the circuit, in closed form, for any user address that fits
    an address slot: the user enters only the first output slot. *)
Lemma layerzero_run (u m : Uint248) :
  u < limit 160 →
  run (layerzeromessage.mkAppCircuit u m) api inp
  = if decide (length (Receipts inp) = 50%nat ∧ length (StorageSlots inp) = 0%nat)
    then if decide (Forall (λ r, layerzeromessage.predicate r = 1) (Receipts inp))
         then if decide (m ≤ 50)
              then (Ok tt, be_bytes 20 u ++ layout [(64, 50); (64, m)])
              else (Fail ThresholdUnmet, [])
         else (Fail PatternMismatch, [])
    else (Fail CapacityMismatch, []).
Proof.
  intros Hu. set (c := layerzeromessage.mkAppCircuit u m).
  destruct (run_cases c api inp) as [(H1 & H2 & ->)|[Hne ->]]; simpl in *.
  2: { rewrite decide_False; [done|]. intros [? ?]. destruct Hne; done. }
  rewrite decide_True by done.
  cbn [Define layerzeromessage.app]. unfold NewDataStream.
  assert (Count (Receipts inp) = 50) as -> by (unfold Count; rewrite H1; done).
  destruct (AssertEach_cases (Receipts inp) layerzeromessage.predicate [])
    as [[HF E]|[HE E]].
  2: { step_fail E. rewrite decide_False; [done|].
       intros HF. apply Exists_exists in HE as (r & Hr & Hne).
       rewrite Forall_forall in HF. by apply Hne, HF. }
  step_ok E. rewrite decide_True by done. simpl.
  destruct (decide (m ≤ 50)) as [Hm|Hm].
  2: { by step_fail (AssertIsLessOrEqual_fail m 50 [] ltac:(lia)). }
  step_ok (AssertIsLessOrEqual_ok m 50 [] Hm).
  unfold OutputAddress.
  step_ok (OutputUint_ok 160 u [] Hu).
  assert (50 < limit 64) as H50 by (by vm_compute).
  rewrite (bind_ok _ _ tt _ _ (OutputUint_ok 64 50 _ H50)).
  rewrite OutputUint_ok by lia.
  unfold layout. cbn [fmap list_fmap concat fst snd app].
  by rewrite app_nil_r, <- !app_assoc.
Qed.

End LayerZero.

(** [Define] of the LayerZero circuit in closed form, on any batch and any
    buffer, for a user address that fits an address slot. *)
Lemma layerzero_define (u m : Uint248) (api : CircuitAPI) (inp : DataInput)
    (b : Buffer) :
  u < limit 160 →
  Define (layerzeromessage.mkAppCircuit u m) api inp b
  = if decide (Forall (λ r, layerzeromessage.predicate r = 1) (Receipts inp))
    then if decide (m ≤ Count (Receipts inp))
         then if decide (Count (Receipts inp) < limit 64)
              then (Ok tt, b ++ be_bytes 20 u
                             ++ layout [(64, Count (Receipts inp)); (64, m)])
              else (Fail Overflow, b ++ be_bytes 20 u)
         else (Fail ThresholdUnmet, b)
    else (Fail PatternMismatch, b).
Proof.
  intros Hu. cbn [Define layerzeromessage.app]. unfold NewDataStream.
  cbn [layerzeromessage.UserAddr layerzeromessage.MinMessageCount].
  destruct (AssertEach_cases (Receipts inp) layerzeromessage.predicate b)
    as [[HF E]|[HE E]].
  2: { step_fail E. rewrite decide_False; [done|].
       intros HF. apply Exists_exists in HE as (r & Hr & Hne).
       rewrite Forall_forall in HF. by apply Hne, HF. }
  step_ok E. rewrite decide_True by done.
  destruct (decide (m ≤ Count (Receipts inp))) as [Hm|Hm].
  2: { by step_fail (AssertIsLessOrEqual_fail m (Count (Receipts inp)) b
                       ltac:(lia)). }
  step_ok (AssertIsLessOrEqual_ok m _ b Hm).
  unfold OutputAddress.
  step_ok (OutputUint_ok 160 u b Hu).
  change (slot_bytes 160) with 20%nat.
  destruct (decide (Count (Receipts inp) < limit 64)) as [Hc|Hc].
  2: { apply N.nlt_ge in Hc.
       by rewrite (bind_fail _ _ _ _ _ (OutputUint_overflow 64 _ _ Hc)). }
  rewrite (bind_ok _ _ tt _ _ (OutputUint_ok 64 _ _ Hc)).
  rewrite OutputUint_ok by lia.
  unfold layout. cbn [fmap list_fmap concat fst snd].
  by rewrite app_nil_r, <- !app_assoc.
Qed.

(** C10.  In the LayerZero message circuit nothing that is verified or
    counted depends on [UserAddr].  For any two user addresses, the same
    threshold and any batch, [Define] succeeds for one exactly when it
    succeeds for the other, the two fail for the same reason, and their
    outputs differ only in the echoed address slot - message count and
    threshold slots agree.  The same holds of whole invocations. *)
Theorem layerzero_user_not_verified
    (u1 u2 m : Uint248) (api : CircuitAPI) (inp : DataInput) :
  u1 < limit 160 → u2 < limit 160 →
  let c1 := layerzeromessage.mkAppCircuit u1 m in
  let c2 := layerzeromessage.mkAppCircuit u2 m in
  (∀ b,
     (succeeds (Define c1 api inp b) ↔ succeeds (Define c2 api inp b)) ∧
     (∀ e, (∃ out, Define c1 api inp b = (Fail e, out))
           ↔ (∃ out, Define c2 api inp b = (Fail e, out))) ∧
     (∀ out1 out2,
        Define c1 api inp b = (Ok tt, out1) → Define c2 api inp b = (Ok tt, out2) →
        ∃ tail, out1 = b ++ be_bytes 20 u1 ++ tail ∧
                out2 = b ++ be_bytes 20 u2 ++ tail ∧
                decode [64; 64] tail = [Count (NewDataStream (Receipts inp)); m])) ∧
  (succeeds (run c1 api inp) ↔ succeeds (run c2 api inp)) ∧
  (∀ e, run c1 api inp = (Fail e, []) ↔ run c2 api inp = (Fail e, [])) ∧
  (∀ out1 out2,
     run c1 api inp = (Ok tt, out1) → run c2 api inp = (Ok tt, out2) →
     ∃ tail, out1 = be_bytes 20 u1 ++ tail ∧ out2 = be_bytes 20 u2 ++ tail ∧
             decode [64; 64] tail = [Count (NewDataStream (Receipts inp)); m]).
Proof.
  intros H1 H2 c1 c2. unfold c1, c2. split.
  { intros b. rewrite !layerzero_define by done. unfold NewDataStream.
    destruct (decide (Forall _ (Receipts inp))) as [HF|_].
    2: { split; [|split]; [| done | done].
         split; intros (a & out & E); done. }
    destruct (decide (m ≤ Count (Receipts inp))) as [Hm|_].
    2: { split; [|split]; [| done | done].
         split; intros (a & out & E); done. }
    destruct (decide (Count (Receipts inp) < limit 64)) as [Hc|_].
    2: { split; [|split]; [| | done].
         - split; intros (a & out & E); done.
         - intros e. split; intros (out & E); inversion E; by eexists. }
    split; [|split].
    - split; intros _; by eexists _, _.
    - intros e. split; intros (out & E); done.
    - intros out1 out2 E1 E2. inversion E1. inversion E2.
      eexists. split; [done|]. split; [done|].
      change [64; 64] with ([(64, Count (Receipts inp)); (64, m)].*1).
      rewrite decode_layout_exact; [done|].
      repeat apply Forall_cons_2; try apply Forall_nil_2; simpl;
        (split; [unfold declared_width; auto|]); [done|lia]. }
  rewrite !layerzero_run by done.
  destruct (decide (length (Receipts inp) = 50%nat ∧ _)) as [[Hl _]|_].
  2: { split; [|split]; [| done | done].
       split; intros (a & out & E); done. }
  destruct (decide (Forall _ (Receipts inp))) as [HF|_].
  2: { split; [|split]; [| done | done].
       split; intros (a & out & E); done. }
  destruct (decide (m ≤ 50)) as [Hm|_].
  2: { split; [|split]; [| done | done].
       split; intros (a & out & E); done. }
  split; [|split].
  - split; intros _; by eexists _, _.
  - done.
  - intros out1 out2 E1 E2. inversion E1. inversion E2.
    eexists. split; [done|]. split; [done|].
    change [64; 64] with ([(64, 50); (64, m)].*1).
    rewrite decode_layout_exact.
    + unfold Count, NewDataStream. rewrite Hl. done.
    + repeat apply Forall_cons_2; try apply Forall_nil_2; simpl;
        (split; [unfold declared_width; auto|]); [by vm_compute|].
      apply N.le_lt_trans with 50; [done|by vm_compute].
Qed.

Lemma layerzero_user_not_verified_witness :
  let r := receipt2 0
       (mkLogField layerzeromessage.EndpointEthereum 3
          layerzeromessage.EventIdPayloadStored 0 2 0x1111) zeroField in
  let few := mkDataInput [r; r; r] [] in
  let full := mkDataInput (replicate 50 r) [] in
  (succeeds (Define (layerzeromessage.mkAppCircuit 0xA11CE 3) someAPI few []) ↔
   succeeds (Define (layerzeromessage.mkAppCircuit 0xB0B 3) someAPI few [])) ∧
  (succeeds (run (layerzeromessage.mkAppCircuit 0xA11CE 50) someAPI full) ↔
   succeeds (run (layerzeromessage.mkAppCircuit 0xB0B 50) someAPI full)).
Proof.
  intros r few full. split.
  - apply (proj1 (layerzero_user_not_verified 0xA11CE 0xB0B 3 someAPI few
                    ltac:(by vm_compute) ltac:(by vm_compute)) []).
  - apply (proj1 (proj2 (layerzero_user_not_verified 0xA11CE 0xB0B 50 someAPI full
                           ltac:(by vm_compute) ltac:(by vm_compute)))).
Defined.

(** ** The token holder circuit *)

Section TokenHolder.

Variables (c : tokenHolder.AppCircuit) (api : CircuitAPI).
Variables (rs : list Receipt) (slot : StorageSlot) (rest : list StorageSlot).
Variable (b : Buffer).

Let holder := tokenHolder.HolderAddr c.
Let balance := ToUint248 (sValue slot).
Let blockNum := ToUint248 (sBlockNum slot).
Let key := SlotOfStructFieldInMapping api 9 0 (ToBytes32 holder).

(** [Define] in closed form.  The checks come first; an oversized value met
    by the encoder fails after the slots before it were written. *)
Lemma tokenHolder_define :
  Define c api (mkDataInput rs (slot :: rest)) b
  = if decide (sContract slot = tokenHolder.USDCTokenAddr) then
      if decide (Slot slot = key) then
        if decide (tokenHolder.minimumBalance ≤ balance) then
          if decide (holder < limit 160) then
            if decide (balance < limit 248) then
              if decide (blockNum < limit 64) then
                (Ok tt, b ++ layout [(160, holder); (248, balance); (64, blockNum)])
              else (Fail Overflow, b ++ layout [(160, holder); (248, balance)])
            else (Fail Overflow, b ++ layout [(160, holder)])
          else (Fail Overflow, b)
        else (Fail ThresholdUnmet, b)
      else (Fail PatternMismatch, b)
    else (Fail PatternMismatch, b).
Proof.
  cbn [Define tokenHolder.app]. unfold NewDataStream, GetUnderlying.
  cbn [StorageSlots lookup list_lookup].
  rewrite (bind_ok (ret slot) _ slot b b eq_refl).
  fold holder key balance blockNum.
  destruct (decide (sContract slot = _)) as [H1|H1].
  2: { by step_fail (AssertIsEqual_fail _ _ b H1). }
  step_ok (AssertIsEqual_ok _ _ b H1).
  destruct (decide (Slot slot = key)) as [H2|H2].
  2: { by step_fail (AssertIsEqual_fail _ _ b H2). }
  step_ok (AssertIsEqual_ok _ _ b H2).
  destruct (decide (tokenHolder.minimumBalance ≤ balance)) as [H3|H3].
  2: { by step_fail (AssertIsLessOrEqual_fail tokenHolder.minimumBalance balance b
                       ltac:(lia)). }
  step_ok (AssertIsLessOrEqual_ok _ _ b H3).
  unfold OutputAddress, layout. cbn [fmap list_fmap concat fst snd].
  rewrite !app_nil_r.
  destruct (decide (holder < limit 160)) as [H4|H4].
  2: { by step_fail (OutputUint_overflow 160 holder b ltac:(lia)). }
  step_ok (OutputUint_ok 160 holder b H4).
  destruct (decide (balance < limit 248)) as [H5|H5].
  2: { apply N.nlt_ge in H5.
       by rewrite (bind_fail _ _ _ _ _ (OutputUint_overflow 248 balance _ H5)). }
  rewrite (bind_ok _ _ tt _ _ (OutputUint_ok 248 balance _ H5)).
  destruct (decide (blockNum < limit 64)) as [H6|H6].
  2: { rewrite OutputUint_overflow by lia. by rewrite <- !app_assoc. }
  rewrite OutputUint_ok by done. by rewrite <- !app_assoc.
Qed.

End TokenHolder.

Lemma tokenHolder_run (c : tokenHolder.AppCircuit) (api : CircuitAPI) (slot : StorageSlot) :
  run c api (mkDataInput [] [slot]) = Define c api (mkDataInput [] [slot]) [].
Proof. by apply run_capacity_ok. Qed.

Lemma tokenHolder_run_ok_inv (c : tokenHolder.AppCircuit) (api : CircuitAPI)
    (inp : DataInput) (out : Buffer) :
  run c api inp = (Ok tt, out) →
  ∃ slot, inp = mkDataInput [] [slot] ∧
    sContract slot = tokenHolder.USDCTokenAddr ∧
    Slot slot = SlotOfStructFieldInMapping api 9 0 (ToBytes32 (tokenHolder.HolderAddr c)) ∧
    tokenHolder.minimumBalance ≤ ToUint248 (sValue slot) ∧
    tokenHolder.HolderAddr c < limit 160 ∧
    ToUint248 (sValue slot) < limit 248 ∧
    ToUint248 (sBlockNum slot) < limit 64 ∧
    out = layout [(160, tokenHolder.HolderAddr c); (248, ToUint248 (sValue slot));
                  (64, ToUint248 (sBlockNum slot))].
Proof.
  intros E.
  destruct (run_cases c api inp) as [(H1 & H2 & E')|[_ E']]; rewrite E' in E;
    [|done].
  destruct inp as [rs ss]. simpl in H1, H2.
  destruct rs; [|done]. destruct ss as [|slot [|? ?]]; [done| |done].
  exists slot. split; [done|].
  rewrite tokenHolder_define in E.
  repeat case_decide; try done.
  inversion E. done.
Qed.

(** The TWAP circuit succeeds once all its checks and encodings go through. *)
Lemma twap_define_ok (t : uniswapv2twap.AppCircuit) (api : CircuitAPI)
    (inp : DataInput) (b : Buffer) (blockRange : Uint248) :
  let total := exact_sum (Map (StorageSlots inp) uniswapv2twap.extract) in
  Forall (λ s, uniswapv2twap.predicate t s = 1) (StorageSlots inp) →
  total < limit width →
  length (StorageSlots inp) = 2%nat →
  uniswapv2twap.MinPrice t ≤ total → total ≤ uniswapv2twap.MaxPrice t →
  Sub api (uniswapv2twap.EndBlock t) (uniswapv2twap.StartBlock t) = Ok blockRange →
  uniswapv2twap.PairAddr t < limit 160 →
  uniswapv2twap.MaxPrice t < limit 248 →
  blockRange < limit 64 →
  Define t api inp b
  = (Ok tt, b ++ layout [(160, uniswapv2twap.PairAddr t); (248, total);
                         (248, uniswapv2twap.MinPrice t);
                         (248, uniswapv2twap.MaxPrice t); (64, blockRange)]).
Proof.
  intros total HF Ht Hl Hmin Hmax HS H1 H2 H3.
  cbn [Define uniswapv2twap.app]. unfold NewDataStream.
  step_ok (AssertEach_ok _ _ b HF).
  step_ok (Sum_ok _ b Ht). fold total.
  assert (Count (StorageSlots inp) = ConstUint248 2) as Hc
    by (unfold Count; rewrite Hl; done).
  step_ok (AssertIsEqual_ok _ _ b Hc).
  step_ok (AssertIsLessOrEqual_ok _ _ b Hmin).
  step_ok (AssertIsLessOrEqual_ok _ _ b Hmax).
  rewrite HS. rewrite (bind_ok (lift (Ok blockRange)) _ blockRange b b eq_refl).
  unfold OutputAddress.
  step_ok (OutputUint_ok 160 _ b H1).
  rewrite (bind_ok _ _ tt _ _ (OutputUint_ok 248 total _ Ht)).
  assert (uniswapv2twap.MinPrice t < limit 248) as Hmin'
    by (unfold width in *; lia).
  rewrite (bind_ok _ _ tt _ _ (OutputUint_ok 248 _ _ Hmin')).
  rewrite (bind_ok _ _ tt _ _ (OutputUint_ok 248 _ _ H2)).
  rewrite OutputUint_ok by done.
  unfold layout. cbn [fmap list_fmap concat fst snd].
  by rewrite app_nil_r, <- !app_assoc.
Qed.

(** ** The output encoder *)

(** Byte [i] of a slot is the digit of weight [256 ^ (n - 1 - i)]: the most
    significant byte comes first. *)
Lemma be_bytes_lookup (n i : nat) (v : N) :
  (i < n)%nat →
  be_bytes n v !! i = Some ((v / 256 ^ N.of_nat (n - 1 - i)) mod 256).
Proof.
  revert v. induction n as [|n IH]; intros v Hi; [lia|].
  cbn [be_bytes].
  destruct (decide (i = n)) as [->|Hne].
  - rewrite lookup_app_r by (rewrite length_be_bytes; lia).
    rewrite length_be_bytes.
    replace (n - n)%nat with 0%nat by lia.
    replace (S n - 1 - n)%nat with 0%nat by lia.
    simpl. by rewrite N.div_1_r.
  - rewrite lookup_app_l by (rewrite length_be_bytes; lia).
    rewrite IH by lia.
    replace (S n - 1 - i)%nat with (S (n - 1 - i))%nat by lia.
    rewrite Nat2N.inj_succ, N.pow_succ_r'.
    by rewrite N.Div0.div_div.
Qed.

Lemma length_layout (vals : list (N * Uint248)) :
  length (layout vals) = sum_list (slot_bytes <$> vals.*1).
Proof.
  unfold layout. induction vals as [|[w v] vals IH]; [done|].
  cbn [fmap list_fmap concat fst snd sum_list sum_list_with].
  rewrite length_app, length_be_bytes. simpl. by rewrite <- IH.
Qed.

(** C7.  Values within their declared widths (64, 160 or 248 bits) are
    serialized without failure as big-endian slots of 8, 20 or 31 bytes
    concatenated in declaration order, and decoding the buffer at the
    declared offsets and widths gives back exactly the values supplied.  The
    token holder circuit's output is such a buffer of its three values. *)
Theorem output_roundtrip (vals : list (N * Uint248)) :
  Forall (λ p, declared_width p.1 ∧ p.2 < limit p.1) vals →
  outputs vals [] = (Ok tt, layout vals) ∧
  length (layout vals) = sum_list (slot_bytes <$> vals.*1) ∧
  decode (vals.*1) (layout vals) = vals.*2 ∧
  (∀ w v (i : nat), declared_width w → (i < slot_bytes w)%nat →
     layout [(w, v)] !! i
     = Some ((v / 256 ^ N.of_nat (slot_bytes w - 1 - i)) mod 256)) ∧
  (∀ (c : tokenHolder.AppCircuit) api inp out,
     run c api inp = (Ok tt, out) →
     ∃ slot, StorageSlots inp = [slot] ∧
       out = layout [(160, tokenHolder.HolderAddr c);
                     (248, ToUint248 (sValue slot));
                     (64, ToUint248 (sBlockNum slot))] ∧
       decode [160; 248; 64] out
       = [tokenHolder.HolderAddr c; ToUint248 (sValue slot);
          ToUint248 (sBlockNum slot)]).
Proof.
  intros HF. split; [|split; [|split; [|split]]].
  - rewrite outputs_ok; [done|].
    eapply Forall_impl; [exact HF|]. by intros p [_ ?].
  - apply length_layout.
  - by apply decode_layout_exact.
  - intros w v i Hw Hi. unfold layout. cbn [fmap list_fmap concat fst snd].
    rewrite app_nil_r. by apply be_bytes_lookup.
  - intros c api inp out E.
    destruct (tokenHolder_run_ok_inv c api inp out E)
      as (slot & -> & _ & _ & _ & H1 & H2 & H3 & ->).
    exists slot. split; [done|]. split; [done|].
    change [160; 248; 64]
      with ([(160, tokenHolder.HolderAddr c); (248, ToUint248 (sValue slot));
             (64, ToUint248 (sBlockNum slot))].*1).
    rewrite decode_layout_exact; [done|].
    repeat apply Forall_cons_2; try apply Forall_nil_2; simpl;
      (split; [unfold declared_width; auto|done]).
Qed.

Lemma output_roundtrip_witness :
  let vals := [(160, 0xCAFE); (248, 150000000); (64, 17)] in
  outputs vals [] = (Ok tt, layout vals) ∧
  length (layout vals) = 59%nat ∧
  decode [160; 248; 64] (layout vals) = [0xCAFE; 150000000; 17].
Proof.
  intros vals.
  assert (Forall (λ p, declared_width p.1 ∧ p.2 < limit p.1) vals) as HF.
  { repeat apply Forall_cons_2; try apply Forall_nil_2; simpl;
      (split; [unfold declared_width; auto|by vm_compute]). }
  destruct (output_roundtrip vals HF) as (H1 & H2 & H3 & _).
  split; [exact H1|]. split; [exact H2|exact H3].
Defined.

(** ** The threshold asserter *)

(** C3.  The one-sided asserter succeeds exactly when threshold <= observed,
    the two-sided one exactly when min <= observed and observed <= max.  At
    the level of whole invocations, all else fixed and in order: the token
    holder circuit succeeds exactly when the balance reaches the minimum,
    and the TWAP circuit exactly when the total lies within both bounds. *)
Theorem threshold_asserter_iff (threshold observed mn mx : Uint248) (b : Buffer) :
  (succeeds (AssertIsLessOrEqual threshold observed b) ↔ threshold ≤ observed) ∧
  (succeeds ((AssertIsLessOrEqual mn observed;; AssertIsLessOrEqual observed mx) b)
     ↔ mn ≤ observed ∧ observed ≤ mx) ∧
  (∀ (c : tokenHolder.AppCircuit) api slot,
     sContract slot = tokenHolder.USDCTokenAddr →
     Slot slot = SlotOfStructFieldInMapping api 9 0 (ToBytes32 (tokenHolder.HolderAddr c)) →
     tokenHolder.HolderAddr c < limit 160 →
     ToUint248 (sValue slot) < limit 248 →
     ToUint248 (sBlockNum slot) < limit 64 →
     (succeeds (run c api (mkDataInput [] [slot]))
        ↔ tokenHolder.minimumBalance ≤ ToUint248 (sValue slot))) ∧
  (∀ (t : uniswapv2twap.AppCircuit) api s1 s2 blockRange,
     let inp := mkDataInput [] [s1; s2] in
     let total := exact_sum (Map (StorageSlots inp) uniswapv2twap.extract) in
     Forall (λ s, uniswapv2twap.predicate t s = 1) [s1; s2] →
     total < limit width →
     Sub api (uniswapv2twap.EndBlock t) (uniswapv2twap.StartBlock t) = Ok blockRange →
     uniswapv2twap.PairAddr t < limit 160 →
     uniswapv2twap.MaxPrice t < limit 248 →
     blockRange < limit 64 →
     (succeeds (run t api inp)
        ↔ uniswapv2twap.MinPrice t ≤ total ∧ total ≤ uniswapv2twap.MaxPrice t)).
Proof.
  split; [|split; [|split]].
  - unfold AssertIsLessOrEqual. case_decide as Hd; split; intros H; try done.
    + by eexists _, _.
    + by destruct H as (? & ? & ?).
  - destruct (decide (mn ≤ observed)) as [H1|H1].
    + step_ok (AssertIsLessOrEqual_ok mn observed b H1).
      unfold AssertIsLessOrEqual. case_decide as Hd; split; intros H; try done.
      * by eexists _, _.
      * by destruct H as (? & ? & ?).
      * lia.
    + step_fail (AssertIsLessOrEqual_fail mn observed b ltac:(lia)).
      split; [by intros (? & ? & ?)|lia].
  - intros c api slot H1 H2 H3 H4 H5.
    rewrite tokenHolder_run, tokenHolder_define.
    destruct (decide (tokenHolder.minimumBalance ≤ ToUint248 (sValue slot)))
      as [Hd|Hd].
    + rewrite !decide_True by done. split; [done|]. intros _. by eexists _, _.
    + rewrite !decide_True by done.
      split; [|done]. by intros (? & ? & ?).
  - intros t api s1 s2 blockRange inp total HF Ht HS H1 H2 H3.
    rewrite run_capacity_ok by done.
    split.
    + intros ([] & out & E).
      by destruct (twap_define_ok_inv t api inp [] out E) as (_ & _ & _ & ? & ? & _).
    + intros [Hmin Hmax]. eexists _, _.
      by apply (twap_define_ok t api inp [] blockRange).
Qed.

Lemma threshold_asserter_iff_witness :
  let c := tokenHolder.mkAppCircuit 0xCAFE in
  let good := mkStorageSlot 17 tokenHolder.USDCTokenAddr (0xCAFE + 9) 150000000 in
  let poor := mkStorageSlot 17 tokenHolder.USDCTokenAddr (0xCAFE + 9) 99999999 in
  (succeeds (run c someAPI (mkDataInput [] [good])) ↔ 100000000 ≤ 150000000) ∧
  (succeeds (run c someAPI (mkDataInput [] [poor])) ↔ 100000000 ≤ 99999999).
Proof.
  intros c good poor. split.
  - apply (proj1 (proj2 (proj2 (threshold_asserter_iff 0 0 0 0 []))) c someAPI good);
      by vm_compute.
  - apply (proj1 (proj2 (proj2 (threshold_asserter_iff 0 0 0 0 []))) c someAPI poor);
      by vm_compute.
Defined.

(** ** The NFT ownership circuit *)

Section NFT.

Variables (c : nftOwnership.AppCircuit) (api : CircuitAPI).
Variables (r : Receipt) (rest : list Receipt) (ss : list StorageSlot).
Variable (b : Buffer).

Let f0 := Fields r !!! 0%fin.
Let f1 := Fields r !!! 1%fin.

(** The eight per-field assertions pass; the ninth compares the log
    positions. *)
Lemma nft_define_fields :
  nft_fields_match c r →
  Define c api (mkDataInput (r :: rest) ss) b
  = (AssertIsEqual (LogPos f0) (LogPos f1);;
     OutputAddress (nftOwnership.OwnerAddr c);;
     OutputAddress (nftOwnership.NFTContractAddr c);;
     OutputUint 248 (nftOwnership.TokenID c);;
     OutputUint 64 (ToUint248 (BlockNum r))) b.
Proof.
  intros (H1 & H2 & H3 & H4 & H5 & H6 & H7 & H8).
  cbn [Define nftOwnership.app]. unfold NewDataStream, GetUnderlying.
  cbn [Receipts lookup list_lookup].
  rewrite (bind_ok (ret r) _ r b b eq_refl).
  do 8 (rewrite (bind_ok _ _ tt b b); [|by apply AssertIsEqual_ok]).
  done.
Qed.

Lemma nft_define_logpos_mismatch :
  nft_fields_match c r → LogPos f0 ≠ LogPos f1 →
  Define c api (mkDataInput (r :: rest) ss) b = (Fail PatternMismatch, b).
Proof.
  intros Hm Hne. rewrite nft_define_fields by done.
  by step_fail (AssertIsEqual_fail _ _ b Hne).
Qed.

Lemma nft_define_ok :
  nft_fields_match c r → LogPos f0 = LogPos f1 →
  nftOwnership.OwnerAddr c < limit 160 →
  nftOwnership.NFTContractAddr c < limit 160 →
  nftOwnership.TokenID c < limit 248 →
  ToUint248 (BlockNum r) < limit 64 →
  Define c api (mkDataInput (r :: rest) ss) b
  = (Ok tt, b ++ layout [(160, nftOwnership.OwnerAddr c);
                         (160, nftOwnership.NFTContractAddr c);
                         (248, nftOwnership.TokenID c);
                         (64, ToUint248 (BlockNum r))]).
Proof.
  intros Hm Hl H1 H2 H3 H4. rewrite nft_define_fields by done.
  step_ok (AssertIsEqual_ok _ _ b Hl). unfold OutputAddress.
  step_ok (OutputUint_ok 160 _ b H1).
  rewrite (bind_ok _ _ tt _ _ (OutputUint_ok 160 _ _ H2)).
  rewrite (bind_ok _ _ tt _ _ (OutputUint_ok 248 _ _ H3)).
  rewrite OutputUint_ok by done.
  unfold layout. cbn [fmap list_fmap concat fst snd].
  by rewrite app_nil_r, <- !app_assoc.
Qed.

(** Success of [Define] implies equal log positions, matching or not. *)
Lemma nft_define_ok_inv (out : Buffer) :
  Define c api (mkDataInput (r :: rest) ss) b = (Ok tt, out) →
  nft_fields_match c r ∧ LogPos f0 = LogPos f1.
Proof.
  cbn [Define nftOwnership.app]. unfold NewDataStream, GetUnderlying.
  cbn [Receipts lookup list_lookup].
  rewrite (bind_ok (ret r) _ r b b eq_refl).
  intros E. unfold nft_fields_match, ConstUint248, ToUint248 in *.
  repeat match type of E with
  | (AssertIsEqual ?x ?y ≫= _) b = _ =>
      destruct (decide (x = y)) as [?|Hne];
      [ rewrite (bind_ok _ _ tt b b (AssertIsEqual_ok x y b ltac:(assumption))) in E
      | by rewrite (bind_fail _ _ _ b b (AssertIsEqual_fail x y b Hne)) in E ]
  end.
  done.
Qed.

End NFT.

(** C9.  In the NFT ownership circuit the two tracked fields must come from
    the same log entry: a first receipt whose two fields each match
    contract, topic flag, index and value but whose log positions differ
    makes verification fail with nothing emitted; any successful [Define]
    had equal log positions; and with equal positions (and values that fit
    their output slots) the same input is accepted. *)
Theorem nft_same_log_entry
    (c : nftOwnership.AppCircuit) (api : CircuitAPI) (inp : DataInput) (r : Receipt) :
  Receipts inp !! 0%nat = Some r →
  (nft_fields_match c r →
   LogPos (Fields r !!! 0%fin) ≠ LogPos (Fields r !!! 1%fin) →
     Define c api inp [] = (Fail PatternMismatch, []) ∧
     (∃ e, run c api inp = (Fail e, [])) ∧
     invoke c api inp = None) ∧
  (∀ b out, Define c api inp b = (Ok tt, out) →
     nft_fields_match c r ∧
     LogPos (Fields r !!! 0%fin) = LogPos (Fields r !!! 1%fin)) ∧
  (nft_fields_match c r →
   LogPos (Fields r !!! 0%fin) = LogPos (Fields r !!! 1%fin) →
   nftOwnership.OwnerAddr c < limit 160 →
   nftOwnership.NFTContractAddr c < limit 160 →
   nftOwnership.TokenID c < limit 248 →
   ToUint248 (BlockNum r) < limit 64 →
   length (Receipts inp) = 1%nat → length (StorageSlots inp) = 0%nat →
     succeeds (run c api inp)).
Proof.
  intros Hr. destruct inp as [[|r' rest] ss]; [done|].
  simpl in Hr. injection Hr as ->.
  split; [|split].
  - intros Hm Hne.
    assert (Define c api (mkDataInput (r :: rest) ss) [] = (Fail PatternMismatch, []))
      as E by (by apply nft_define_logpos_mismatch).
    split; [done|].
    assert (∃ e, run c api (mkDataInput (r :: rest) ss) = (Fail e, [])) as [e E'].
    { destruct (run_cases c api (mkDataInput (r :: rest) ss))
        as [(_ & _ & ->)|[_ ->]]; by eexists. }
    split; [by exists e|]. by eapply invoke_fail.
  - intros b out E. by eapply nft_define_ok_inv.
  - intros Hm Hl H1 H2 H3 H4 Hn Hs.
    rewrite run_capacity_ok by done.
    rewrite nft_define_ok by done. by eexists _, _.
Qed.

Lemma nft_same_log_entry_witness :
  let c := nftOwnership.mkAppCircuit 0xC0 0xA11CE 42 in
  let r := receipt2 9 (mkLogField 0xC0 3 0 1 2 0xA11CE) (mkLogField 0xC0 4 0 1 3 42) in
  let inp := mkDataInput [r] [] in
  Define c someAPI inp [] = (Fail PatternMismatch, []) ∧
  (∃ e, run c someAPI inp = (Fail e, [])) ∧
  invoke c someAPI inp = None.
Proof.
  intros c r inp.
  apply (proj1 (nft_same_log_entry c someAPI inp r eq_refl)).
  - by vm_compute.
  - by vm_compute.
Defined.

(** ** The bidirectional matcher *)

Lemma bidirectional_conjuncts (r : Receipt) :
  uniswapv2bidirectional.contractMatches r = 1 ∧
  uniswapv2bidirectional.eventIdMatches r = 1 ∧
  uniswapv2bidirectional.fieldIndicesCorrect r = 1
  ↔ bidirectional_provenance r.
Proof.
  unfold uniswapv2bidirectional.contractMatches, uniswapv2bidirectional.eventIdMatches,
    uniswapv2bidirectional.fieldIndicesCorrect, bidirectional_provenance.
  rewrite !And_true, !Forall_cons, !Forall_nil, !IsEqual_true, !IsZero_true.
  unfold ConstUint248. tauto.
Qed.

(** C4.  The bidirectional matcher accepts a record exactly when all the
    provenance conjuncts (contract, event id, field indices and kinds) hold
    and the user is the sender or the recipient.  So a record whose "to"
    field is the user is accepted although its "sender" field is not, and
    symmetrically; a record failing a provenance conjunct is rejected
    whoever sent or received. *)
Theorem bidirectional_or_accepts (c : uniswapv2bidirectional.AppCircuit) (r : Receipt) :
  let user := uniswapv2bidirectional.UserAddr c in
  (uniswapv2bidirectional.predicate c r = 1
     ↔ bidirectional_provenance r ∧ (sender r = user ∨ recipient r = user)) ∧
  (bidirectional_provenance r → recipient r = user → sender r ≠ user →
     uniswapv2bidirectional.predicate c r = 1) ∧
  (bidirectional_provenance r → sender r = user → recipient r ≠ user →
     uniswapv2bidirectional.predicate c r = 1) ∧
  (¬ bidirectional_provenance r → uniswapv2bidirectional.predicate c r ≠ 1) ∧
  (∀ batch b,
     Forall (λ r, bidirectional_provenance r ∧ (sender r = user ∨ recipient r = user))
       batch →
     AssertEach (NewDataStream batch) (uniswapv2bidirectional.predicate c) b
     = (Ok tt, b)).
Proof.
  intros user.
  assert (∀ r, uniswapv2bidirectional.predicate c r = 1
     ↔ bidirectional_provenance r ∧ (sender r = user ∨ recipient r = user)) as Hiff.
  { intros r'. rewrite <- bidirectional_conjuncts.
    unfold uniswapv2bidirectional.predicate, sender, recipient, user.
    rewrite And_true, !Forall_cons, Forall_nil.
    rewrite Or_true, !Exists_cons, Exists_nil, !IsEqual_true. tauto. }
  split; [apply Hiff|]. split; [|split; [|split]].
  - intros Hp Hr _. apply Hiff. tauto.
  - intros Hp Hs _. apply Hiff. tauto.
  - intros Hn Hp. apply Hiff in Hp. tauto.
  - intros batch b HF. apply AssertEach_ok.
    eapply Forall_impl; [exact HF|]. intros r' Hr'. by apply Hiff.
Qed.

Lemma bidirectional_or_accepts_witness :
  uniswapv2bidirectional.predicate
    (uniswapv2bidirectional.mkAppCircuit 0xCAFE 0 0) (swap_receipt 1 2 0xBAD 0xCAFE) = 1.
Proof.
  apply (proj1 (proj2 (bidirectional_or_accepts
           (uniswapv2bidirectional.mkAppCircuit 0xCAFE 0 0)
           (swap_receipt 1 2 0xBAD 0xCAFE)))).
  - by vm_compute.
  - by vm_compute.
  - by vm_compute.
Defined.

(** * The error classification helpers of the query test *)

Section QueryTest.

Import querytest.

Lemma lowerByte_idemp (c : ascii) : lowerByte (lowerByte c) = lowerByte c.
Proof. by destruct c as [[] [] [] [] [] [] [] []]. Qed.

Lemma lowerByte_not_upper (c : ascii) :
  ¬ (N_of_ascii "A" ≤ N_of_ascii (lowerByte c) ≤ N_of_ascii "Z").
Proof. destruct c as [[] [] [] [] [] [] [] []]; vm_compute; intros [H1 H2]; by (apply H1 || apply H2). Qed.

Lemma lowerByte_other (c : ascii) :
  ¬ (N_of_ascii "A" ≤ N_of_ascii c ≤ N_of_ascii "Z") → lowerByte c = c.
Proof.
  intros H. unfold lowerByte.
  destruct (N_of_ascii "A" <=? N_of_ascii c) eqn:E1; [|done].
  destruct (N_of_ascii c <=? N_of_ascii "Z") eqn:E2; [|done].
  exfalso. apply H. split; [by apply N.leb_le|by apply N.leb_le].
Qed.

Lemma toLower_idemp (s : gostring) : toLower (toLower s) = toLower s.
Proof.
  unfold toLower. rewrite <- list_fmap_compose. apply list_fmap_ext.
  intros i c _. apply lowerByte_idemp.
Qed.

Lemma toLower_app (s t : gostring) : toLower (s ++ t) = toLower s ++ toLower t.
Proof. unfold toLower. apply fmap_app. Qed.

(** [contains] finds exactly the case-insensitive occurrences. *)
Lemma contains_spec (s substr : gostring) :
  contains s substr = true
  ↔ ∃ pre post, toLower s = pre ++ toLower substr ++ post.
Proof.
  unfold contains.
  set (S := toLower s). set (T := toLower substr).
  rewrite existsb_exists. split.
  - intros (i & _ & Hi). apply bool_decide_eq_true_1 in Hi.
    exists (take i S), (drop (length T) (drop i S)).
    rewrite <- (take_drop i S) at 1. f_equal.
    rewrite <- (take_drop (length T) (drop i S)) at 1. by rewrite Hi.
  - intros (pre & post & E). exists (length pre). split.
    + apply in_seq. rewrite E, !length_app. lia.
    + apply bool_decide_eq_true_2.
      rewrite E, drop_app_length. by rewrite take_app_length.
Qed.

End QueryTest.

Section QueryTestProperties.

Import querytest.

(** X1.  [toLower] keeps the length, is idempotent, leaves no upper-case
    ASCII letter behind and does not change a string without one. *)
Theorem toLower_normalises (s : gostring) :
  length (toLower s) = length s ∧
  toLower (toLower s) = toLower s ∧
  Forall (λ c, ¬ isUpper c) (toLower s) ∧
  (Forall (λ c, ¬ isUpper c) s → toLower s = s).
Proof.
  split; [apply length_fmap|]. split; [apply toLower_idemp|]. split.
  - unfold toLower. apply Forall_fmap, Forall_true. intros c. apply lowerByte_not_upper.
  - intros HF. unfold toLower. induction HF as [|c s Hc _ IH]; [done|].
    rewrite fmap_cons, IH. f_equal. by apply lowerByte_other.
Qed.

Lemma toLower_normalises_witness :
  toLower (str "rpc error: code = unavailable") = str "rpc error: code = unavailable".
Proof.
  apply (proj2 (proj2 (proj2 (toLower_normalises (str "rpc error: code = unavailable"))))).
  repeat constructor; vm_compute; intros [H1 H2]; by (apply H1 || apply H2).
Defined.

(** X2.  [contains s substr] holds exactly when the lowered [substr] occurs
    in the lowered [s] as a contiguous run.  The empty [substr] is always
    contained, and a [substr] longer than [s] never is. *)
Theorem contains_case_insensitive (s substr : gostring) :
  (contains s substr = true
     ↔ ∃ pre post, toLower s = pre ++ toLower substr ++ post) ∧
  contains s [] = true ∧
  ((length s < length substr)%nat → contains s substr = false).
Proof.
  split; [apply contains_spec|]. split.
  - apply contains_spec. by exists [], (toLower s).
  - intros Hlt. apply not_true_is_false. intros (pre & post & E)%contains_spec.
    apply (f_equal length) in E. unfold toLower in E.
    rewrite !length_app, !length_fmap in E. lia.
Qed.

Lemma contains_case_insensitive_witness :
  contains (str "ok") (str "Forbidden") = false.
Proof.
  apply (proj2 (proj2 (contains_case_insensitive (str "ok") (str "Forbidden")))).
  vm_compute. lia.
Defined.

Lemma containsAny_false (s : gostring) (ws : list gostring) :
  containsAny s ws = false ↔ ∀ w, w ∈ ws → contains s w = false.
Proof.
  unfold containsAny. split.
  - intros E w Hw. apply not_true_is_false. intros Hc.
    assert (existsb (contains s) ws = true) as E'; [|congruence].
    apply existsb_exists. exists w. split; [by apply list_elem_of_In|done].
  - intros H. apply not_true_is_false. intros (w & Hw & Hc)%existsb_exists.
    rewrite H in Hc; [done|]. by apply list_elem_of_In.
Qed.

(** X3.  [containsAny] holds exactly when one of the candidate substrings
    occurs, ignoring case; with no candidates it is false. *)
Theorem containsAny_some_occurrence (s : gostring) (substrs : list gostring) :
  (containsAny s substrs = true
     ↔ ∃ w, w ∈ substrs ∧ ∃ pre post, toLower s = pre ++ toLower w ++ post) ∧
  containsAny s [] = false.
Proof.
  split; [|done]. unfold containsAny. rewrite existsb_exists. split.
  - intros (w & Hw & Hc). exists w. split; [by apply list_elem_of_In|].
    by apply contains_spec.
  - intros (w & Hw & Hc). exists w. split; [by apply list_elem_of_In|].
    by apply contains_spec.
Qed.

Lemma contains_lower (s s' w : gostring) :
  toLower s = toLower s' → contains s w = contains s' w.
Proof. intros E. unfold contains. by rewrite E. Qed.

Lemma containsAny_lower (s s' : gostring) (ws : list gostring) :
  toLower s = toLower s' → containsAny s ws = containsAny s' ws.
Proof.
  intros E. unfold containsAny. induction ws as [|w ws IH]; [done|].
  simpl. by rewrite IH, (contains_lower s s' w E).
Qed.

(** X4.  The classification of an error message ignores case: two messages
    that agree after lowering fall into the same branch. *)
Theorem analyzeError_ignores_case (msg msg' : gostring) :
  toLower msg = toLower msg' → analyzeError msg = analyzeError msg'.
Proof.
  intros E. unfold analyzeError. by rewrite !(containsAny_lower msg msg' _ E).
Qed.

Lemma analyzeError_ignores_case_witness :
  analyzeError (str "Permission Denied") = analyzeError (str "permission denied").
Proof. apply analyzeError_ignores_case. by vm_compute. Defined.

Lemma keyword_found (msg w : gostring) (ws : list gostring) :
  w ∈ ws → toLower w = w → occurs w msg → containsAny msg ws = true.
Proof.
  intros Hw Hl (pre & post & E).
  unfold containsAny. apply existsb_exists. exists w.
  split; [by apply list_elem_of_In|].
  apply contains_spec. exists pre, post. by rewrite Hl.
Qed.

Lemma keywords_lower (w : gostring) :
  w ∈ authWords ++ networkWords ++ rateWords ++ rpcWords → toLower w = w.
Proof.
  intros Hw. unfold authWords, networkWords, rateWords, rpcWords in Hw. simpl in Hw.
  repeat (apply elem_of_cons in Hw as [->|Hw]; [by vm_compute|]).
  by apply elem_of_nil in Hw.
Qed.

(** X5.  The branches of [analyzeError] are tried in a fixed order.  A
    message in which an authentication keyword occurs is reported as an
    authentication error whatever else it mentions; a network keyword wins
    over the rate-limit and RPC keywords; and the message is reported as
    unknown exactly when none of the thirteen keywords occurs in it. *)
Theorem analyzeError_precedence (msg : gostring) :
  (∀ w, w ∈ authWords → occurs w msg → analyzeError msg = AuthenticationError) ∧
  (∀ w, w ∈ networkWords → occurs w msg →
     (∀ a, a ∈ authWords → ¬ occurs a msg) →
     analyzeError msg = NetworkConnectionError) ∧
  (analyzeError msg = UnknownError
     ↔ ∀ w, w ∈ authWords ++ networkWords ++ rateWords ++ rpcWords → ¬ occurs w msg).
Proof.
  assert (∀ ws, (∀ w, w ∈ ws → toLower w = w) →
            (containsAny msg ws = false ↔ ∀ w, w ∈ ws → ¬ occurs w msg)) as Hnone.
  { intros ws Hl. rewrite containsAny_false. split.
    - intros H w Hw (pre & post & E).
      assert (contains msg w = true) as Hc; [|by rewrite H in Hc].
      apply contains_spec. exists pre, post. by rewrite (Hl w Hw).
    - intros H w Hw. apply not_true_is_false.
      intros (pre & post & E)%contains_spec. apply (H w Hw).
      exists pre, post. by rewrite (Hl w Hw) in E. }
  assert (∀ w, w ∈ authWords → toLower w = w) as La.
  { intros w Hw. apply keywords_lower. rewrite !elem_of_app. auto. }
  assert (∀ w, w ∈ networkWords → toLower w = w) as Ln.
  { intros w Hw. apply keywords_lower. rewrite !elem_of_app. auto. }
  assert (∀ w, w ∈ rateWords → toLower w = w) as Lr.
  { intros w Hw. apply keywords_lower. rewrite !elem_of_app. auto. }
  assert (∀ w, w ∈ rpcWords → toLower w = w) as Lp.
  { intros w Hw. apply keywords_lower. rewrite !elem_of_app. auto. }
  split; [|split].
  - intros w Hw Ho. unfold analyzeError.
    by rewrite (keyword_found msg w authWords Hw (La w Hw) Ho).
  - intros w Hw Ho Hna. unfold analyzeError.
    rewrite (proj2 (Hnone authWords La) Hna).
    by rewrite (keyword_found msg w networkWords Hw (Ln w Hw) Ho).
  - unfold analyzeError. split.
    + intros E w Hw.
      destruct (containsAny msg authWords) eqn:E1; [done|].
      destruct (containsAny msg networkWords) eqn:E2; [done|].
      destruct (containsAny msg rateWords) eqn:E3; [done|].
      destruct (containsAny msg rpcWords) eqn:E4; [done|].
      pose proof (proj1 (Hnone _ La) E1) as N1.
      pose proof (proj1 (Hnone _ Ln) E2) as N2.
      pose proof (proj1 (Hnone _ Lr) E3) as N3.
      pose proof (proj1 (Hnone _ Lp) E4) as N4.
      rewrite !elem_of_app in Hw. destruct Hw as [?|[?|[?|?]]]; eauto.
    + intros H.
      rewrite (proj2 (Hnone authWords La));
        [|intros w Hw; apply H; rewrite !elem_of_app; auto].
      rewrite (proj2 (Hnone networkWords Ln));
        [|intros w Hw; apply H; rewrite !elem_of_app; auto].
      rewrite (proj2 (Hnone rateWords Lr));
        [|intros w Hw; apply H; rewrite !elem_of_app; auto].
      rewrite (proj2 (Hnone rpcWords Lp));
        [done|intros w Hw; apply H; rewrite !elem_of_app; auto].
Qed.

Lemma analyzeError_precedence_witness :
  analyzeError (str "RPC connection refused: Unauthorized") = AuthenticationError.
Proof.
  apply (proj1 (analyzeError_precedence (str "RPC connection refused: Unauthorized"))
           (str "auth")).
  - unfold authWords. apply list_elem_of_here.
  - exists (str "rpc connection refused: un"), (str "orized"). by vm_compute.
Defined.

End QueryTestProperties.

(** * Further properties of the circuits *)

Lemma pipeline_ok_inv (ds : DataStream Receipt) (pred extract : Receipt → Uint248)
    (user threshold : Uint248) (b out : Buffer) :
  Count ds < limit 64 →
  threshold_pipeline ds pred extract user threshold b = (Ok tt, out) →
  Forall (λ r, pred r = 1) ds ∧
  exact_sum (Map ds extract) < limit width ∧
  threshold ≤ exact_sum (Map ds extract) ∧
  user < limit 160 ∧
  out = b ++ layout [(160, user); (248, exact_sum (Map ds extract));
                     (248, threshold); (64, Count ds)].
Proof.
  intros Hc E.
  destruct (pipeline_cases ds pred extract user threshold b Hc)
    as [[_ E']|[(_&_&E')|[(_&_&_&E')|[(_&_&_&_&E')|(HF&Ht&Hm&Hu&E')]]]];
    rewrite E' in E; try done.
  by inversion E.
Qed.

(** X6.  Lowering the threshold never turns a successful run of the
    SushiSwap volume circuit into a failing one: if [Define] succeeds for
    [MinVolume = m] on a batch of at most fifty receipts, it succeeds for
    every [m' <= m] on the same user and batch. *)
Theorem sushiswap_threshold_monotone
    (u m m' : Uint248) (api : CircuitAPI) (inp : DataInput) (b : Buffer) :
  (length (Receipts inp) ≤ 50)%nat →
  m' ≤ m →
  succeeds (Define (sushiswap.mkAppCircuit u m) api inp b) →
  succeeds (Define (sushiswap.mkAppCircuit u m') api inp b).
Proof.
  intros Hl Hle ([] & out & E).
  assert (Count (Receipts inp) < limit 64) as Hc
    by (eapply Count_small; [reflexivity|exact Hl]).
  rewrite sushiswap_define in E. rewrite sushiswap_define.
  apply pipeline_ok_inv in E as (HF & Ht & Hm & Hu & _); [|done].
  simpl in *.
  assert (Forall (λ r, sushiswap.predicate (sushiswap.mkAppCircuit u m') r = 1)
            (Receipts inp)) as HF'.
  { eapply Forall_impl; [exact HF|]. intros r Hr.
    apply sushiswap_predicate_true in Hr. by apply sushiswap_predicate_true. }
  assert (m' ≤ exact_sum (Map (Receipts inp) sushiswap.extract)) as Hm' by lia.
  rewrite (pipeline_ok _ _ _ _ _ b HF' Ht Hm' Hu Hc). by eexists _, _.
Qed.

Lemma sushiswap_threshold_monotone_witness :
  let inp := mkDataInput (replicate 50 (sushiswap_receipt 3 0xCAFE)) [] in
  succeeds (Define (sushiswap.mkAppCircuit 0xCAFE 20) someAPI inp []).
Proof.
  intros inp.
  apply (sushiswap_threshold_monotone 0xCAFE 150 20 someAPI inp []).
  - vm_compute. lia.
  - by vm_compute.
  - eexists _, _. by vm_compute.
Defined.

(** ** Inversion of successful runs *)

Section Inversion.

Lemma bind_ok_inv {A B} (m : Circuit A) (f : A → Circuit B) b x out :
  (m ≫= f) b = (Ok x, out) → ∃ a b', m b = (Ok a, b') ∧ f a b' = (Ok x, out).
Proof.
  unfold mbind, circuit_bind, bind. destruct (m b) as [[a|e] b']; [|done].
  intros E. by exists a, b'.
Qed.

Lemma bind_fail_inv {A B} (m : Circuit A) (f : A → Circuit B) b e out :
  (m ≫= f) b = (Fail e, out) →
  m b = (Fail e, out) ∨ ∃ a b', m b = (Ok a, b') ∧ f a b' = (Fail e, out).
Proof.
  unfold mbind, circuit_bind, bind. destruct (m b) as [[a|e'] b'].
  - intros E. right. by exists a, b'.
  - intros E. left. by inversion E.
Qed.

Lemma AssertEach_ok_inv {T} (ds : DataStream T) (f : T → Uint248) b a b' :
  AssertEach ds f b = (Ok a, b') → Forall (λ r, f r = 1) ds ∧ b' = b.
Proof.
  intros E. destruct (AssertEach_cases ds f b) as [[HF E']|[_ E']];
    rewrite E' in E; [|done]. by inversion E.
Qed.

Lemma Sum_ok_inv (xs : list Uint248) b s b' :
  Sum xs b = (Ok s, b') → s = exact_sum xs ∧ s < limit width ∧ b' = b.
Proof.
  intros E. destruct (Sum_cases xs b) as [[H E']|[_ E']];
    rewrite E' in E; [|done]. by inversion E; subst.
Qed.

Lemma Add_ok_inv (x y : Uint248) b s b' :
  Add x y b = (Ok s, b') → s = x + y ∧ s < limit width ∧ b' = b.
Proof. unfold Add. case_decide; intros E; [|done]. by inversion E; subst. Qed.

Lemma AssertIsEqual_ok_inv (x y : N) b a b' :
  AssertIsEqual x y b = (Ok a, b') → x = y ∧ b' = b.
Proof. unfold AssertIsEqual. case_decide; intros E; [|done]. by inversion E. Qed.

Lemma AssertIsLessOrEqual_ok_inv (x y : Uint248) b a b' :
  AssertIsLessOrEqual x y b = (Ok a, b') → x ≤ y ∧ b' = b.
Proof. unfold AssertIsLessOrEqual. case_decide; intros E; [|done]. by inversion E. Qed.

Lemma OutputUint_ok_inv (w : N) (v : Uint248) b a b' :
  OutputUint w v b = (Ok a, b') → v < limit w ∧ b' = b ++ be_bytes (slot_bytes w) v.
Proof. unfold OutputUint. case_decide; intros E; [|done]. by inversion E. Qed.

Lemma GetUnderlying_ok_inv {T} (ds : DataStream T) (i : nat) b x b' :
  GetUnderlying ds i b = (Ok x, b') → ds !! i = Some x ∧ b' = b.
Proof.
  unfold GetUnderlying. destruct (ds !! i) as [y|]; intros E; [|done].
  by inversion E.
Qed.

Lemma lift_ok_inv {A} (r : result A) b x b' :
  lift r b = (Ok x, b') → r = Ok x ∧ b' = b.
Proof. unfold lift. intros E. by inversion E. Qed.

(** The checks fail without touching the buffer. *)
Lemma AssertEach_fail_inv {T} (ds : DataStream T) (f : T → Uint248) b e b' :
  AssertEach ds f b = (Fail e, b') → b' = b.
Proof.
  intros E. destruct (AssertEach_cases ds f b) as [[_ E']|[_ E']];
    rewrite E' in E; by inversion E.
Qed.

Lemma Sum_fail_inv (xs : list Uint248) b e b' :
  Sum xs b = (Fail e, b') → e = Overflow ∧ limit width ≤ exact_sum xs ∧ b' = b.
Proof.
  intros E. destruct (Sum_cases xs b) as [[_ E']|[H E']];
    rewrite E' in E; [done|]. by inversion E.
Qed.

Lemma Add_fail_inv (x y : Uint248) b e b' :
  Add x y b = (Fail e, b') → e = Overflow ∧ limit width ≤ x + y ∧ b' = b.
Proof.
  unfold Add. case_decide; intros E; [done|]. inversion E. split; [done|].
  split; [lia|done].
Qed.

Lemma AssertIsEqual_fail_inv (x y : N) b e b' :
  AssertIsEqual x y b = (Fail e, b') → b' = b.
Proof. unfold AssertIsEqual. case_decide; intros E; by inversion E. Qed.

Lemma AssertIsLessOrEqual_fail_inv (x y : Uint248) b e b' :
  AssertIsLessOrEqual x y b = (Fail e, b') → e = ThresholdUnmet ∧ y < x ∧ b' = b.
Proof.
  unfold AssertIsLessOrEqual. case_decide; intros E; [done|]. inversion E.
  split; [done|]. split; [lia|done].
Qed.

Lemma OutputUint_fail_inv (w : N) (v : Uint248) b e b' :
  OutputUint w v b = (Fail e, b') → e = Overflow ∧ limit w ≤ v ∧ b' = b.
Proof.
  unfold OutputUint. case_decide; intros E; [done|]. inversion E.
  split; [done|]. split; [lia|done].
Qed.

End Inversion.

(** Take a successful run apart, one call at a time. *)
Ltac invert_ok E :=
  repeat match type of E with
  | (AssertEach _ _ ≫= _) _ = (Ok _, _) =>
      let HF := fresh "HF" in
      apply bind_ok_inv in E as (? & ? & [HF ->]%AssertEach_ok_inv & E)
  | (Sum _ ≫= _) _ = (Ok _, _) =>
      let Hs := fresh "Hs" in
      apply bind_ok_inv in E as (? & ? & (-> & Hs & ->)%Sum_ok_inv & E)
  | (Add _ _ ≫= _) _ = (Ok _, _) =>
      let Hs := fresh "Hs" in
      apply bind_ok_inv in E as (? & ? & (-> & Hs & ->)%Add_ok_inv & E)
  | (AssertIsEqual _ _ ≫= _) _ = (Ok _, _) =>
      let He := fresh "He" in
      apply bind_ok_inv in E as (? & ? & [He ->]%AssertIsEqual_ok_inv & E)
  | (AssertIsLessOrEqual _ _ ≫= _) _ = (Ok _, _) =>
      let Hle := fresh "Hle" in
      apply bind_ok_inv in E as (? & ? & [Hle ->]%AssertIsLessOrEqual_ok_inv & E)
  | (OutputAddress _ ≫= _) _ = (Ok _, _) =>
      let Ho := fresh "Ho" in
      apply bind_ok_inv in E as (? & ? & [Ho ->]%OutputUint_ok_inv & E)
  | (OutputUint _ _ ≫= _) _ = (Ok _, _) =>
      let Ho := fresh "Ho" in
      apply bind_ok_inv in E as (? & ? & [Ho ->]%OutputUint_ok_inv & E)
  | (GetUnderlying _ _ ≫= _) _ = (Ok _, _) =>
      let Hg := fresh "Hg" in
      apply bind_ok_inv in E as (? & ? & [Hg ->]%GetUnderlying_ok_inv & E)
  | (lift _ ≫= _) _ = (Ok _, _) =>
      let Hl := fresh "Hl" in
      apply bind_ok_inv in E as (? & ? & [Hl ->]%lift_ok_inv & E)
  | OutputUint _ _ _ = (Ok _, _) =>
      let Ho := fresh "Ho" in
      apply OutputUint_ok_inv in E as [Ho E]
  end.

Ltac layout_eq :=
  unfold layout; cbn [fmap list_fmap concat fst snd];
  rewrite ?app_nil_r, <- ?app_assoc; reflexivity.

(** ** The pipeline in closed form *)

Lemma pipeline_closed (ds : DataStream Receipt) (pred extract : Receipt → Uint248)
    (user threshold : Uint248) (b : Buffer) :
  user < limit 160 → Count ds < limit 64 →
  threshold_pipeline ds pred extract user threshold b
  = if decide (Forall (λ r, pred r = 1) ds) then
      if decide (exact_sum (Map ds extract) < limit width) then
        if decide (threshold ≤ exact_sum (Map ds extract)) then
          (Ok tt, b ++ layout [(160, user); (248, exact_sum (Map ds extract));
                               (248, threshold); (64, Count ds)])
        else (Fail ThresholdUnmet, b)
      else (Fail Overflow, b)
    else (Fail PatternMismatch, b).
Proof.
  intros Hu Hc.
  destruct (pipeline_cases ds pred extract user threshold b Hc)
    as [[HE E]|[(HF&Ht&E)|[(HF&Ht&Hm&E)|[(HF&Ht&Hm&Hu'&E)|(HF&Ht&Hm&_&E)]]]];
    rewrite E.
  - rewrite decide_False; [done|].
    intros HF. apply Exists_exists in HE as (r & Hr & Hne).
    rewrite Forall_forall in HF. by apply Hne, HF.
  - rewrite decide_True, decide_False by (done || lia). done.
  - rewrite !decide_True by done. rewrite decide_False by lia. done.
  - lia.
  - by rewrite !decide_True by done.
Qed.

Lemma aave_define (c : aave.AppCircuit) (api : CircuitAPI) (inp : DataInput) :
  Define c api inp
  = threshold_pipeline (Receipts inp) (aave.predicate c) aave.extract
      (aave.UserAddr c) (aave.MinDeposit c).
Proof. reflexivity. Qed.

Lemma aave_predicate_true (c : aave.AppCircuit) (r : Receipt) :
  aave.predicate c r = 1 ↔ aave_pattern c r.
Proof.
  unfold aave.predicate, aave_pattern.
  rewrite And_true, !Forall_cons, Forall_nil.
  rewrite !And_true, !Forall_cons, !Forall_nil, !IsEqual_true, !IsZero_true.
  unfold ConstUint248, ToUint248. tauto.
Qed.

(** X7.  A successful run of the Aave deposit circuit on a batch of at most
    thirty receipts: every receipt is a Supply event of the Pool whose
    depositing user (data word 0, not the indexed onBehalfOf) is
    [UserAddr]; the threshold is at most the exact total of the amounts;
    and the output decodes to user, total, threshold and number of
    receipts.  A failed run has emitted nothing. *)
Theorem aave_invocation_sound
    (c : aave.AppCircuit) (api : CircuitAPI) (inp : DataInput) (b : Buffer) :
  (length (Receipts inp) ≤ 30)%nat →
  (∀ out, Define c api inp [] = (Ok tt, out) →
     let total := exact_sum (Map (NewDataStream (Receipts inp)) aave.extract) in
     Forall (aave_pattern c) (Receipts inp) ∧
     aave.MinDeposit c ≤ total ∧
     decode [160; 248; 248; 64] out
     = [aave.UserAddr c; total; aave.MinDeposit c; N.of_nat (length (Receipts inp))]) ∧
  (∀ e out, Define c api inp b = (Fail e, out) → out = b).
Proof.
  intros Hl.
  assert (Count (Receipts inp) < limit 64) as Hc
    by (eapply Count_small; [reflexivity|lia]).
  split.
  - intros out E total. rewrite aave_define in E.
    apply pipeline_ok_inv in E as (HF & Ht & Hm & Hu & ->); [|done].
    split.
    { eapply Forall_impl; [exact HF|]. intros r. apply aave_predicate_true. }
    split; [done|]. rewrite app_nil_l.
    change [160; 248; 248; 64]
      with ([(160, aave.UserAddr c);
             (248, exact_sum (Map (Receipts inp) aave.extract));
             (248, aave.MinDeposit c); (64, Count (Receipts inp))].*1).
    rewrite decode_layout_exact; [done|].
    repeat apply Forall_cons_2; try apply Forall_nil_2; simpl;
      (split; [unfold declared_width; auto|]); try done.
    unfold width in *. lia.
  - intros e out E. rewrite aave_define in E.
    by eapply pipeline_fail_clean.
Qed.

Lemma balancer_define (c : balancerweighted.AppCircuit) (api : CircuitAPI)
    (inp : DataInput) :
  Define c api inp
  = threshold_pipeline (Receipts inp) balancerweighted.predicate
      balancerweighted.extract (balancerweighted.UserAddr c)
      (balancerweighted.MinVolume c).
Proof. reflexivity. Qed.

(** X8.  The Balancer volume circuit never looks at [UserAddr] except to
    echo it: for two user addresses, the same threshold and the same batch
    of at most fifty receipts, one run succeeds exactly when the other
    does, both fail for the same reason, and the outputs agree after the
    20-byte address slot. *)
Theorem balancer_user_not_verified
    (u1 u2 m : Uint248) (api : CircuitAPI) (inp : DataInput) :
  u1 < limit 160 → u2 < limit 160 → (length (Receipts inp) ≤ 50)%nat →
  let c1 := balancerweighted.mkAppCircuit u1 m in
  let c2 := balancerweighted.mkAppCircuit u2 m in
  (succeeds (Define c1 api inp []) ↔ succeeds (Define c2 api inp [])) ∧
  (∀ e, Define c1 api inp [] = (Fail e, []) ↔ Define c2 api inp [] = (Fail e, [])) ∧
  (∀ out1 out2,
     Define c1 api inp [] = (Ok tt, out1) → Define c2 api inp [] = (Ok tt, out2) →
     ∃ tail, out1 = be_bytes 20 u1 ++ tail ∧ out2 = be_bytes 20 u2 ++ tail).
Proof.
  intros H1 H2 Hl c1 c2.
  rewrite !balancer_define.
  assert (Count (Receipts inp) < limit 64) as Hc
    by (eapply Count_small; [reflexivity|exact Hl]).
  rewrite !pipeline_closed by done. simpl.
  destruct (decide (Forall _ (Receipts inp))) as [HF|_].
  2: { split; [|split]; [|done|done]. split; intros (? & ? & ?); done. }
  destruct (decide (exact_sum _ < limit width)) as [Ht|_].
  2: { split; [|split]; [|done|done]. split; intros (? & ? & ?); done. }
  destruct (decide (m ≤ _)) as [Hm|_].
  2: { split; [|split]; [|done|done]. split; intros (? & ? & ?); done. }
  split; [|split].
  - split; intros _; by eexists _, _.
  - done.
  - intros out1 out2 Eo1 Eo2. inversion Eo1. inversion Eo2.
    unfold layout. cbn [fmap list_fmap concat fst snd]. by eexists.
Qed.

Lemma balancer_user_not_verified_witness :
  let inp := mkDataInput
    (replicate 50 (receipt2 0
       (mkLogField balancerweighted.VaultAddress 3 balancerweighted.EventIdSwap 0 1 7)
       (mkLogField balancerweighted.VaultAddress 3 balancerweighted.EventIdSwap 1 3 0xC02a)))
    [] in
  succeeds (Define (balancerweighted.mkAppCircuit 0xA11CE 300) someAPI inp []) ↔
  succeeds (Define (balancerweighted.mkAppCircuit 0xB0B 300) someAPI inp []).
Proof.
  intros inp.
  apply (balancer_user_not_verified 0xA11CE 0xB0B 300 someAPI inp);
    [by vm_compute | by vm_compute | vm_compute; lia].
Defined.

Lemma aave_invocation_sound_witness :
  let c := aave.mkAppCircuit 0xCAFE 100 in
  let r := receipt2 0 (mkLogField aave.PoolAddress 5 aave.EventIdSupply 0 1 4)
                      (mkLogField aave.PoolAddress 5 aave.EventIdSupply 0 0 0xCAFE) in
  let inp := mkDataInput (replicate 30 r) [] in
  decode [160; 248; 248; 64] (Define c someAPI inp []).2 = [0xCAFE; 120; 100; 30].
Proof.
  intros c r inp.
  apply (proj1 (aave_invocation_sound c someAPI inp [] ltac:(vm_compute; lia))
           (Define c someAPI inp []).2).
  by vm_compute.
Defined.

(** ** The SushiSwap liquidity circuit *)

Section LP.

Variables (c : sushiswaplp.AppCircuit) (api : CircuitAPI) (inp : DataInput).

Let ds := Receipts inp.
Let t0 := exact_sum (Map ds sushiswaplp.amount0).
Let t1 := exact_sum (Map ds sushiswaplp.amount1).

Lemma lp_define_ok_inv (b out : Buffer) :
  Define c api inp b = (Ok tt, out) →
  Forall (λ r, sushiswaplp.predicate c r = 1) ds ∧
  t0 < limit width ∧ t1 < limit width ∧
  sushiswaplp.MinLiquidityV0 c ≤ t0 ∧ sushiswaplp.MinLiquidityV1 c ≤ t1 ∧
  sushiswaplp.UserAddr c < limit 160 ∧ Count ds < limit 64 ∧
  out = b ++ layout [(160, sushiswaplp.UserAddr c); (248, t0); (248, t1);
                     (64, Count ds)].
Proof.
  cbn [Define sushiswaplp.app]. unfold NewDataStream. fold ds.
  intros E. invert_ok E. subst out. unfold t0, t1.
  repeat split; try done. layout_eq.
Qed.

Lemma lp_define_ok (b : Buffer) :
  Forall (λ r, sushiswaplp.predicate c r = 1) ds →
  t0 < limit width → t1 < limit width →
  sushiswaplp.MinLiquidityV0 c ≤ t0 → sushiswaplp.MinLiquidityV1 c ≤ t1 →
  sushiswaplp.UserAddr c < limit 160 → Count ds < limit 64 →
  Define c api inp b
  = (Ok tt, b ++ layout [(160, sushiswaplp.UserAddr c); (248, t0); (248, t1);
                         (64, Count ds)]).
Proof.
  intros HF H0 H1 Hm0 Hm1 Hu Hc.
  cbn [Define sushiswaplp.app]. unfold NewDataStream. fold ds.
  step_ok (AssertEach_ok _ _ b HF).
  step_ok (Sum_ok _ b H0). step_ok (Sum_ok _ b H1). fold t0 t1.
  step_ok (AssertIsLessOrEqual_ok _ _ b Hm0).
  step_ok (AssertIsLessOrEqual_ok _ _ b Hm1).
  unfold OutputAddress.
  step_ok (OutputUint_ok 160 _ b Hu).
  rewrite (bind_ok _ _ tt _ _ (OutputUint_ok 248 t0 _ H0)).
  rewrite (bind_ok _ _ tt _ _ (OutputUint_ok 248 t1 _ H1)).
  rewrite OutputUint_ok by done. f_equal. layout_eq.
Qed.

(** A failure of any check leaves the buffer as it was. *)
Lemma lp_define_fail_clean (b out : Buffer) (e : Error) :
  Count ds < limit 64 →
  Define c api inp b = (Fail e, out) → out = b.
Proof.
  cbn [Define sushiswaplp.app]. unfold NewDataStream. fold ds.
  intros Hc E.
  apply bind_fail_inv in E as [E|(? & ? & [HF ->]%AssertEach_ok_inv & E)];
    [by eapply AssertEach_fail_inv|].
  apply bind_fail_inv in E as [E|(? & ? & (-> & H0 & ->)%Sum_ok_inv & E)];
    [by apply Sum_fail_inv in E as (_ & _ & ->)|].
  apply bind_fail_inv in E as [E|(? & ? & (-> & H1 & ->)%Sum_ok_inv & E)];
    [by apply Sum_fail_inv in E as (_ & _ & ->)|].
  apply bind_fail_inv in E as [E|(? & ? & [Hm0 ->]%AssertIsLessOrEqual_ok_inv & E)];
    [by apply AssertIsLessOrEqual_fail_inv in E as (_ & _ & ->)|].
  apply bind_fail_inv in E as [E|(? & ? & [Hm1 ->]%AssertIsLessOrEqual_ok_inv & E)];
    [by apply AssertIsLessOrEqual_fail_inv in E as (_ & _ & ->)|].
  apply bind_fail_inv in E as [E|(? & ? & [Hu ->]%OutputUint_ok_inv & E)];
    [by apply OutputUint_fail_inv in E as (_ & _ & ->)|].
  apply bind_fail_inv in E as [E|(? & ? & [_ ->]%OutputUint_ok_inv & E)];
    [apply OutputUint_fail_inv in E as (_ & Hge & _); unfold width in *; lia|].
  apply bind_fail_inv in E as [E|(? & ? & [_ ->]%OutputUint_ok_inv & E)];
    [apply OutputUint_fail_inv in E as (_ & Hge & _); unfold width in *; lia|].
  apply OutputUint_fail_inv in E as (_ & Hge & _). lia.
Qed.

End LP.

(** X9.  The SushiSwap liquidity circuit needs both thresholds: on a batch
    of at most twenty receipts, [Define] succeeds exactly when every
    receipt matches, the two totals fit 248 bits, the token0 total reaches
    [MinLiquidityV0], the token1 total reaches [MinLiquidityV1] and the user
    fits the address slot.  On success the output is exactly the 90 bytes
    of user, the two totals and the number of receipts - the thresholds are
    not written - and a failed run has emitted nothing. *)
Theorem lp_needs_both_thresholds
    (c : sushiswaplp.AppCircuit) (api : CircuitAPI) (inp : DataInput) :
  let t0 := exact_sum (Map (NewDataStream (Receipts inp)) sushiswaplp.amount0) in
  let t1 := exact_sum (Map (NewDataStream (Receipts inp)) sushiswaplp.amount1) in
  (length (Receipts inp) ≤ 20)%nat →
  (succeeds (Define c api inp [])
     ↔ Forall (λ r, sushiswaplp.predicate c r = 1) (Receipts inp) ∧
       t0 < limit width ∧ t1 < limit width ∧
       sushiswaplp.MinLiquidityV0 c ≤ t0 ∧ sushiswaplp.MinLiquidityV1 c ≤ t1 ∧
       sushiswaplp.UserAddr c < limit 160) ∧
  (∀ out, Define c api inp [] = (Ok tt, out) →
     out = layout [(160, sushiswaplp.UserAddr c); (248, t0); (248, t1);
                   (64, N.of_nat (length (Receipts inp)))] ∧
     length out = 90%nat ∧
     decode [160; 248; 248; 64] out
     = [sushiswaplp.UserAddr c; t0; t1; N.of_nat (length (Receipts inp))]) ∧
  (∀ b e out, Define c api inp b = (Fail e, out) → out = b).
Proof.
  intros t0 t1 Hl. unfold NewDataStream in *.
  assert (Count (Receipts inp) < limit 64) as Hc
    by (eapply Count_small; [reflexivity|lia]).
  split; [|split].
  - split.
    + intros ([] & out & E).
      by apply lp_define_ok_inv in E as (? & ? & ? & ? & ? & ? & _).
    + intros (HF & H0 & H1 & Hm0 & Hm1 & Hu).
      rewrite lp_define_ok by done. by eexists _, _.
  - intros out E.
    apply lp_define_ok_inv in E as (_ & H0 & H1' & _ & _ & Hu & _ & ->).
    rewrite app_nil_l. fold t0 t1. unfold Count.
    split; [done|]. split; [by rewrite length_layout|].
    change [160; 248; 248; 64]
      with ([(160, sushiswaplp.UserAddr c); (248, t0); (248, t1);
             (64, N.of_nat (length (Receipts inp)))].*1).
    rewrite decode_layout_exact; [done|].
    repeat apply Forall_cons_2; try apply Forall_nil_2; simpl;
      (split; [unfold declared_width; auto|]); done.
  - intros b e out E. by eapply lp_define_fail_clean.
Qed.

Lemma lp_needs_both_thresholds_witness :
  let r := mkReceipt 0 [# mkLogField sushiswaplp.USDCWETHPair 2 sushiswaplp.EventIdMint 1 1 0xCAFE;
                          mkLogField sushiswaplp.USDCWETHPair 2 sushiswaplp.EventIdMint 0 0 10;
                          mkLogField sushiswaplp.USDCWETHPair 2 sushiswaplp.EventIdMint 0 1 1;
                          zeroField] in
  let inp := mkDataInput (replicate 20 r) [] in
  let c := sushiswaplp.mkAppCircuit 0xCAFE 200 20 in
  succeeds (Define c someAPI inp []) ∧
  (Define c someAPI inp []).2
  = layout [(160, 0xCAFE); (248, 200); (248, 20); (64, 20)] ∧
  length (Define c someAPI inp []).2 = 90%nat.
Proof.
  intros r inp c.
  pose proof (lp_needs_both_thresholds c someAPI inp ltac:(vm_compute; lia))
    as (Hiff & Hout & _).
  split.
  - apply Hiff. split; [apply Forall_replicate; by vm_compute|].
    repeat split; by vm_compute.
  - destruct (Hout (Define c someAPI inp []).2 ltac:(by vm_compute)) as (Ho & Hlen & _).
    split; [exact Ho|exact Hlen].
Defined.

(** ** The bidirectional volume circuit *)

Lemma bidirectional_predicate_true
    (c : uniswapv2bidirectional.AppCircuit) (r : Receipt) :
  uniswapv2bidirectional.predicate c r = 1
  ↔ bidirectional_provenance r ∧
    (sender r = uniswapv2bidirectional.UserAddr c ∨
     recipient r = uniswapv2bidirectional.UserAddr c).
Proof.
  rewrite <- bidirectional_conjuncts.
  unfold uniswapv2bidirectional.predicate, sender, recipient.
  rewrite And_true, !Forall_cons, Forall_nil.
  rewrite Or_true, !Exists_cons, Exists_nil, !IsEqual_true. tauto.
Qed.

Section Bidirectional.

Variables (c : uniswapv2bidirectional.AppCircuit) (api : CircuitAPI) (inp : DataInput).

Let ds := Receipts inp.
Let tin := exact_sum (Map ds uniswapv2bidirectional.amount1In).
Let tout := exact_sum (Map ds uniswapv2bidirectional.amount1Out).

Lemma bidirectional_define_ok_inv (b out : Buffer) :
  Define c api inp b = (Ok tt, out) →
  Forall (λ r, uniswapv2bidirectional.predicate c r = 1) ds ∧
  uniswapv2bidirectional.MinVolumeIn c ≤ tin ∧
  uniswapv2bidirectional.MinVolumeOut c ≤ tout ∧
  tin + tout < limit width ∧
  uniswapv2bidirectional.UserAddr c < limit 160 ∧ Count ds < limit 64 ∧
  out = b ++ layout [(160, uniswapv2bidirectional.UserAddr c); (248, tin);
                     (248, tout); (248, tin + tout); (64, Count ds)].
Proof.
  cbn [Define uniswapv2bidirectional.app]. unfold NewDataStream. fold ds.
  intros E. invert_ok E. subst out. unfold tin, tout.
  repeat split; try done. layout_eq.
Qed.

Lemma bidirectional_total_overflow (b : Buffer) :
  Forall (λ r, uniswapv2bidirectional.predicate c r = 1) ds →
  tin < limit width → tout < limit width →
  uniswapv2bidirectional.MinVolumeIn c ≤ tin →
  uniswapv2bidirectional.MinVolumeOut c ≤ tout →
  limit width ≤ tin + tout →
  Define c api inp b = (Fail Overflow, b).
Proof.
  intros HF Hi Ho Hmi Hmo Hov.
  cbn [Define uniswapv2bidirectional.app]. unfold NewDataStream. fold ds.
  step_ok (AssertEach_ok _ _ b HF).
  step_ok (Sum_ok _ b Hi). step_ok (Sum_ok _ b Ho). fold tin tout.
  step_ok (AssertIsLessOrEqual_ok _ _ b Hmi).
  step_ok (AssertIsLessOrEqual_ok _ _ b Hmo).
  by step_fail (Add_overflow tin tout b Hov).
Qed.

End Bidirectional.

(** X10.  A successful run of the bidirectional volume circuit: every
    receipt is accepted by the matcher; each directional total reaches its
    own minimum; and the output decodes to the user, WETH sent, WETH
    received, their exact sum (which fits 248 bits) and the number of
    receipts. *)
Theorem bidirectional_output_sound
    (c : uniswapv2bidirectional.AppCircuit) (api : CircuitAPI) (inp : DataInput)
    (out : Buffer) :
  Define c api inp [] = (Ok tt, out) →
  let tin := exact_sum (Map (NewDataStream (Receipts inp))
                          uniswapv2bidirectional.amount1In) in
  let tout := exact_sum (Map (NewDataStream (Receipts inp))
                           uniswapv2bidirectional.amount1Out) in
  Forall (λ r, bidirectional_provenance r ∧
               (sender r = uniswapv2bidirectional.UserAddr c ∨
                recipient r = uniswapv2bidirectional.UserAddr c)) (Receipts inp) ∧
  uniswapv2bidirectional.MinVolumeIn c ≤ tin ∧
  uniswapv2bidirectional.MinVolumeOut c ≤ tout ∧
  tin + tout < 2 ^ 248 ∧
  decode [160; 248; 248; 248; 64] out
  = [uniswapv2bidirectional.UserAddr c; tin; tout; tin + tout;
     N.of_nat (length (Receipts inp))].
Proof.
  intros E tin tout. unfold NewDataStream in *.
  apply bidirectional_define_ok_inv in E as (HF & Hmi & Hmo & Hs & Hu & Hc & ->).
  fold tin tout in Hmi, Hmo, Hs |- *.
  split.
  { eapply Forall_impl; [exact HF|]. intros r Hr.
    by apply bidirectional_predicate_true. }
  split; [done|]. split; [done|]. split; [done|].
  rewrite app_nil_l.
  change [160; 248; 248; 248; 64]
    with ([(160, uniswapv2bidirectional.UserAddr c); (248, tin); (248, tout);
           (248, tin + tout); (64, Count (Receipts inp))].*1).
  rewrite decode_layout_exact; [done|].
  repeat apply Forall_cons_2; try apply Forall_nil_2; simpl;
    (split; [unfold declared_width; auto|]); try done;
    unfold width, limit in *; lia.
Qed.

Lemma bidirectional_output_sound_witness :
  let c := uniswapv2bidirectional.mkAppCircuit 0xCAFE 50 100 in
  let inp := mkDataInput (replicate 50 (swap_receipt 1 2 0xBAD 0xCAFE)) [] in
  decode [160; 248; 248; 248; 64] (Define c someAPI inp []).2
  = [0xCAFE; 50; 100; 150; 50].
Proof.
  intros c inp.
  apply (bidirectional_output_sound c someAPI inp (Define c someAPI inp []).2).
  by vm_compute.
Defined.

(** X11.  When each directional total fits 248 bits and meets its minimum
    but the two together do not fit, the bidirectional circuit fails with
    [Overflow] at the addition of the totals, before anything is emitted. *)
Theorem bidirectional_combined_overflow
    (c : uniswapv2bidirectional.AppCircuit) (api : CircuitAPI) (inp : DataInput)
    (b : Buffer) :
  let tin := exact_sum (Map (NewDataStream (Receipts inp))
                          uniswapv2bidirectional.amount1In) in
  let tout := exact_sum (Map (NewDataStream (Receipts inp))
                           uniswapv2bidirectional.amount1Out) in
  Forall (λ r, uniswapv2bidirectional.predicate c r = 1) (Receipts inp) →
  tin < 2 ^ 248 → tout < 2 ^ 248 →
  uniswapv2bidirectional.MinVolumeIn c ≤ tin →
  uniswapv2bidirectional.MinVolumeOut c ≤ tout →
  2 ^ 248 ≤ tin + tout →
  Define c api inp b = (Fail Overflow, b).
Proof. intros tin tout. by apply bidirectional_total_overflow. Qed.

Lemma bidirectional_combined_overflow_witness :
  let c := uniswapv2bidirectional.mkAppCircuit 0xCAFE 1 1 in
  let inp := mkDataInput
    (replicate 50 (swap_receipt (2 ^ 242) (2 ^ 242) 0xCAFE 0xBAD)) [] in
  Define c someAPI inp [] = (Fail Overflow, []).
Proof.
  intros c inp.
  apply (bidirectional_combined_overflow c someAPI inp []);
    [ | by vm_compute | by vm_compute | by vm_compute | by vm_compute | by vm_compute].
  apply Forall_replicate. by vm_compute.
Defined.

(** ** What the NFT ownership circuit does not read *)

(** X12.  The NFT ownership circuit never reads the event id of the tracked
    fields, nor fields 2 and 3, nor any receipt after the first: two inputs
    whose first receipts agree on block number and on contract, log
    position, topic flag, index and value of fields 0 and 1 give the same
    result.  A log of any other event with the same shape is accepted like
    a Transfer. *)
Theorem nft_event_id_unchecked
    (c : nftOwnership.AppCircuit) (api : CircuitAPI)
    (r r' : Receipt) (rest rest' : list Receipt) (ss ss' : list StorageSlot)
    (b : Buffer) :
  nft_agree r r' →
  Define c api (mkDataInput (r :: rest) ss) b
  = Define c api (mkDataInput (r' :: rest') ss') b.
Proof.
  intros [Hb Hf].
  destruct (Hf 0%fin ltac:(by left)) as (C0 & L0 & T0 & I0 & V0).
  destruct (Hf 1%fin ltac:(by right)) as (C1 & L1 & T1 & I1 & V1).
  cbn [Define nftOwnership.app]. unfold NewDataStream, GetUnderlying.
  cbn [Receipts lookup list_lookup].
  rewrite !(bind_ok (ret _) _ _ b b eq_refl).
  unfold NumMaxLogFields in *.
  by rewrite Hb, C0, L0, T0, I0, V0, C1, L1, T1, I1, V1.
Qed.

Lemma nft_event_id_unchecked_witness :
  let c := nftOwnership.mkAppCircuit 0xC0 0xA11CE 42 in
  let transfer := 0xddf252ad1be2c89b69c2b068fc378daa952ba7f163c4a11628f55a4df523b3ef in
  let approval := 0x8c5be1e5ebec7d5bd14f71427d1e84f3dd0314c0f7b2291e5b200ac8c7c3b925 in
  let r ev := receipt2 9 (mkLogField 0xC0 3 ev 1 2 0xA11CE) (mkLogField 0xC0 3 ev 1 3 42) in
  Define c someAPI (mkDataInput [r transfer] []) []
  = Define c someAPI (mkDataInput [r approval] []) [].
Proof.
  intros c transfer approval r.
  apply (nft_event_id_unchecked c someAPI (r transfer) (r approval) [] [] [] [] []).
  split; [done|]. intros i [-> | ->]; by vm_compute.
Defined.

(** ** What the TWAP circuit does not read *)

Lemma AssertEach_view {T V} (view : T → V) (g : V → Uint248) (f : T → Uint248)
    (ds ds' : list T) (b : Buffer) :
  (∀ s, f s = g (view s)) → view <$> ds = view <$> ds' →
  AssertEach ds f b = AssertEach ds' f b.
Proof.
  intros Hf Hv. unfold AssertEach.
  assert (∀ l : list T, forallb (λ r, bool_decide (f r = 1)) l
            = forallb (λ v, bool_decide (g v = 1)) (view <$> l)) as Hfa.
  { induction l as [|x l IH]; [done|]. simpl. by rewrite IH, Hf. }
  by rewrite !Hfa, Hv.
Qed.

(** X13.  The TWAP circuit reads only the contract and the value of each
    storage slot - not the slot key, not the block number - and treats the
    two slots symmetrically: inputs whose slots agree on contract and value
    give the same result, and so do inputs whose slots are permuted.  The
    circuit therefore cannot tell the start observation from the end one,
    nor a price accumulator from any other slot of the pair. *)
Theorem twap_slot_key_unchecked
    (t : uniswapv2twap.AppCircuit) (api : CircuitAPI) (inp inp' : DataInput)
    (b : Buffer) :
  (twap_view <$> StorageSlots inp = twap_view <$> StorageSlots inp' →
     Define t api inp b = Define t api inp' b) ∧
  (StorageSlots inp ≡ₚ StorageSlots inp' →
     Define t api inp b = Define t api inp' b).
Proof.
  split.
  - intros Hv. cbn [Define uniswapv2twap.app]. unfold NewDataStream.
    assert (Map (StorageSlots inp) uniswapv2twap.extract
            = Map (StorageSlots inp') uniswapv2twap.extract) as ->.
    { unfold Map.
      change uniswapv2twap.extract with (λ s, ToUint248 (twap_view s).2).
      rewrite !(list_fmap_compose twap_view (λ v, ToUint248 v.2)).
      by rewrite Hv. }
    assert (Count (StorageSlots inp) = Count (StorageSlots inp')) as ->.
    { unfold Count. apply (f_equal length) in Hv.
      rewrite !length_fmap in Hv. by rewrite Hv. }
    unfold mbind, circuit_bind, bind.
    by rewrite (AssertEach_view twap_view (λ v, IsEqual v.1 (uniswapv2twap.PairAddr t))
                  (uniswapv2twap.predicate t) (StorageSlots inp) (StorageSlots inp')
                  b (λ s, eq_refl) Hv).
  - intros Hp. cbn [Define uniswapv2twap.app]. unfold NewDataStream.
    assert (Map (StorageSlots inp) uniswapv2twap.extract
            ≡ₚ Map (StorageSlots inp') uniswapv2twap.extract) as Hm
      by (unfold Map; by rewrite Hp).
    rewrite (Count_perm _ _ Hp).
    unfold mbind, circuit_bind, bind.
    rewrite (AssertEach_perm _ _ _ b Hp).
    destruct (AssertEach (StorageSlots inp') (uniswapv2twap.predicate t) b)
      as [[[]|e] b1]; [|done].
    cbv beta. by rewrite (Sum_perm _ _ b1 Hm).
Qed.

Lemma twap_slot_key_unchecked_witness :
  let t := uniswapv2twap.mkAppCircuit 0xB4e1 0 1000 100 200 in
  let price1 := mkStorageSlot 100 0xB4e1 9 400 in
  let kLast := mkStorageSlot 200 0xB4e1 10 400 in
  let other := mkStorageSlot 200 0xB4e1 9 500 in
  Define t someAPI (mkDataInput [] [price1; other]) []
    = Define t someAPI (mkDataInput [] [kLast; other]) [] ∧
  Define t someAPI (mkDataInput [] [price1; other]) []
    = Define t someAPI (mkDataInput [] [other; price1]) [].
Proof.
  intros t price1 kLast other. split.
  - apply (proj1 (twap_slot_key_unchecked t someAPI
             (mkDataInput [] [price1; other]) (mkDataInput [] [kLast; other]) [])).
    by vm_compute.
  - apply (proj2 (twap_slot_key_unchecked t someAPI
             (mkDataInput [] [price1; other]) (mkDataInput [] [other; price1]) [])).
    apply perm_swap.
Defined.

(** ** The token holder circuit, end to end *)

(** X14.  [Define] of the token holder circuit succeeds exactly when the
    first storage slot of the input belongs to the USDC contract, its key
    is the balance-mapping key of [HolderAddr], its value is at least
    100000000 (100 USDC) and fits 248 bits, the holder fits an address slot
    and the block number fits 64 bits.  Receipts and further slots are not
    read. *)
Theorem tokenHolder_sound_complete
    (c : tokenHolder.AppCircuit) (api : CircuitAPI) (inp : DataInput) (b : Buffer) :
  succeeds (Define c api inp b)
  ↔ ∃ slot, StorageSlots inp !! 0%nat = Some slot ∧
      sContract slot = tokenHolder.USDCTokenAddr ∧
      Slot slot = SlotOfStructFieldInMapping api 9 0 (ToBytes32 (tokenHolder.HolderAddr c)) ∧
      100000000 ≤ ToUint248 (sValue slot) ∧
      tokenHolder.HolderAddr c < 2 ^ 160 ∧
      ToUint248 (sValue slot) < 2 ^ 248 ∧
      ToUint248 (sBlockNum slot) < 2 ^ 64.
Proof.
  destruct inp as [rs [|slot rest]].
  - split; [|by intros (? & ? & _)]. by intros ([] & out & E).
  - rewrite tokenHolder_define. split.
    + intros ([] & out & E). exists slot. split; [done|].
      repeat case_decide; done.
    + intros (slot' & [= <-] & H1 & H2 & H3 & H4 & H5 & H6).
      rewrite !decide_True by done. by eexists _, _.
Qed.

(** X15.  The key that the query test program computes for the balance
    slot, [calculateBalanceSlot], is the zero hash whatever the holder; a
    USDC slot carrying that key is rejected by the token holder circuit
    with nothing emitted, unless the holder's balance-mapping key is itself
    zero. *)
Theorem calculateBalanceSlot_rejected
    (c : tokenHolder.AppCircuit) (api : CircuitAPI)
    (holder blockNum value : N) (b : Buffer) :
  SlotOfStructFieldInMapping api 9 0 (ToBytes32 (tokenHolder.HolderAddr c)) ≠ 0 →
  Define c api (mkDataInput []
    [mkStorageSlot blockNum tokenHolder.USDCTokenAddr
       (querytest.calculateBalanceSlot holder 9) value]) b
  = (Fail PatternMismatch, b).
Proof.
  intros Hne. rewrite tokenHolder_define.
  cbn [sContract Slot].
  rewrite decide_True by done. rewrite decide_False; [done|].
  unfold querytest.calculateBalanceSlot. by intros E.
Qed.

Lemma calculateBalanceSlot_rejected_witness :
  Define (tokenHolder.mkAppCircuit 0x28C6c06298d514Db089934071355E5743bf21d60) someAPI
    (mkDataInput []
      [mkStorageSlot 18000000 tokenHolder.USDCTokenAddr
         (querytest.calculateBalanceSlot 0x28C6c06298d514Db089934071355E5743bf21d60 9)
         150000000]) []
  = (Fail PatternMismatch, []).
Proof. apply calculateBalanceSlot_rejected. by vm_compute. Defined.

(** ** The multi-chain balance circuit *)

Section MultiChain.

Variables (c : multichainbalance.AppCircuit) (api : CircuitAPI).
Variables (rs : list Receipt) (s0 s1 : StorageSlot) (rest : list StorageSlot).

Let holder := multichainbalance.HolderAddr c.
Let key := SlotOfStructFieldInMapping api 9 0 (ToBytes32 holder).
Let v0 := ToUint248 (sValue s0).
Let v1 := ToUint248 (sValue s1).
Let inp := mkDataInput rs (s0 :: s1 :: rest).

Lemma multichain_define_ok_inv (b out : Buffer) :
  Define c api inp b = (Ok tt, out) →
  sContract s0 = multichainbalance.USDCEthereum ∧
  sContract s1 = multichainbalance.USDC_BSC ∧
  Slot s0 = key ∧ Slot s1 = key ∧
  v0 + v1 < limit width ∧
  multichainbalance.MinTotalBalance c ≤ v0 + v1 ∧
  holder < limit 160 ∧
  out = b ++ layout [(160, holder); (248, v0); (248, v1); (248, v0 + v1);
                     (248, multichainbalance.MinTotalBalance c)].
Proof.
  cbn [Define multichainbalance.app]. unfold NewDataStream, GetUnderlying, inp.
  cbn [StorageSlots lookup list_lookup].
  rewrite !(bind_ok (ret _) _ _ b b eq_refl).
  intros E. invert_ok E. subst out. unfold key, holder, v0, v1.
  repeat split; try done. layout_eq.
Qed.

Lemma multichain_define_ok (b : Buffer) :
  sContract s0 = multichainbalance.USDCEthereum →
  sContract s1 = multichainbalance.USDC_BSC →
  Slot s0 = key → Slot s1 = key →
  v0 + v1 < limit width →
  multichainbalance.MinTotalBalance c ≤ v0 + v1 →
  holder < limit 160 →
  Define c api inp b
  = (Ok tt, b ++ layout [(160, holder); (248, v0); (248, v1); (248, v0 + v1);
                         (248, multichainbalance.MinTotalBalance c)]).
Proof.
  intros C0 C1 K0 K1 Hs Hm Hu.
  cbn [Define multichainbalance.app]. unfold NewDataStream, GetUnderlying, inp.
  cbn [StorageSlots lookup list_lookup].
  rewrite !(bind_ok (ret _) _ _ b b eq_refl).
  step_ok (AssertIsEqual_ok _ _ b C0). step_ok (AssertIsEqual_ok _ _ b C1).
  step_ok (AssertIsEqual_ok _ _ b K0). step_ok (AssertIsEqual_ok _ _ b K1).
  step_ok (Add_ok v0 v1 b Hs).
  step_ok (AssertIsLessOrEqual_ok _ _ b Hm).
  unfold OutputAddress. step_ok (OutputUint_ok 160 _ b Hu).
  assert (v0 < limit 248 ∧ v1 < limit 248 ∧ v0 + v1 < limit 248 ∧
          multichainbalance.MinTotalBalance c < limit 248) as (L0 & L1 & L2 & L3)
    by (unfold width in *; lia).
  rewrite (bind_ok _ _ tt _ _ (OutputUint_ok 248 v0 _ L0)).
  rewrite (bind_ok _ _ tt _ _ (OutputUint_ok 248 v1 _ L1)).
  rewrite (bind_ok _ _ tt _ _ (OutputUint_ok 248 (v0 + v1) _ L2)).
  rewrite OutputUint_ok by done. f_equal. layout_eq.
Qed.

End MultiChain.

(** X16.  A successful run of the multi-chain balance circuit: the first
    storage slot belongs to the Ethereum USDC contract and the second to
    the BSC one, both under the balance-mapping key of [HolderAddr]; the
    total is the exact sum of the two balances, fits 248 bits and reaches
    [MinTotalBalance]; and the output decodes to holder, the two balances,
    the total and the threshold. *)
Theorem multichain_output_sound
    (c : multichainbalance.AppCircuit) (api : CircuitAPI) (inp : DataInput)
    (out : Buffer) :
  Define c api inp [] = (Ok tt, out) →
  ∃ s0 s1, StorageSlots inp !! 0%nat = Some s0 ∧ StorageSlots inp !! 1%nat = Some s1 ∧
    sContract s0 = multichainbalance.USDCEthereum ∧
    sContract s1 = multichainbalance.USDC_BSC ∧
    Slot s0 = SlotOfStructFieldInMapping api 9 0
                (ToBytes32 (multichainbalance.HolderAddr c)) ∧
    Slot s1 = Slot s0 ∧
    sValue s0 + sValue s1 < 2 ^ 248 ∧
    multichainbalance.MinTotalBalance c ≤ sValue s0 + sValue s1 ∧
    decode [160; 248; 248; 248; 248] out
    = [multichainbalance.HolderAddr c; sValue s0; sValue s1;
       sValue s0 + sValue s1; multichainbalance.MinTotalBalance c].
Proof.
  intros E. destruct inp as [rs ss].
  destruct ss as [|s0 [|s1 rest]].
  - by cbn in E.
  - by cbn in E.
  - apply multichain_define_ok_inv in E as (C0 & C1 & K0 & K1 & Hs & Hm & Hu & ->).
    exists s0, s1. unfold ToUint248 in *.
    split; [done|]. split; [done|]. split; [done|]. split; [done|].
    split; [done|]. split; [congruence|]. split; [done|]. split; [done|].
    rewrite app_nil_l.
    change [160; 248; 248; 248; 248]
      with ([(160, multichainbalance.HolderAddr c); (248, sValue s0); (248, sValue s1);
             (248, sValue s0 + sValue s1);
             (248, multichainbalance.MinTotalBalance c)].*1).
    rewrite decode_layout_exact; [done|].
    repeat apply Forall_cons_2; try apply Forall_nil_2; simpl;
      (split; [unfold declared_width; auto|]); try done;
      unfold width in *; lia.
Qed.

Lemma multichain_output_sound_witness :
  let c := multichainbalance.mkAppCircuit 0xCAFE 100 in
  let inp := mkDataInput []
    [mkStorageSlot 5 multichainbalance.USDCEthereum (0xCAFE + 9) 70;
     mkStorageSlot 6 multichainbalance.USDC_BSC (0xCAFE + 9) 50] in
  ∃ s0 s1, StorageSlots inp !! 0%nat = Some s0 ∧ StorageSlots inp !! 1%nat = Some s1 ∧
    sContract s0 = multichainbalance.USDCEthereum ∧
    sContract s1 = multichainbalance.USDC_BSC ∧
    Slot s0 = SlotOfStructFieldInMapping someAPI 9 0
                (ToBytes32 (multichainbalance.HolderAddr c)) ∧
    Slot s1 = Slot s0 ∧
    sValue s0 + sValue s1 < 2 ^ 248 ∧
    multichainbalance.MinTotalBalance c ≤ sValue s0 + sValue s1 ∧
    decode [160; 248; 248; 248; 248] (Define c someAPI inp []).2
    = [multichainbalance.HolderAddr c; sValue s0; sValue s1;
       sValue s0 + sValue s1; multichainbalance.MinTotalBalance c].
Proof.
  intros c inp.
  apply (multichain_output_sound c someAPI inp (Define c someAPI inp []).2).
  by vm_compute.
Defined.

(** X17.  The two slots of the multi-chain balance circuit are not
    interchangeable: if an input is accepted, the input with its first two
    storage slots swapped is rejected with a pattern mismatch and nothing
    emitted, because slot 0 must belong to the Ethereum USDC contract and
    slot 1 to the BSC one. *)
Theorem multichain_slot_order
    (c : multichainbalance.AppCircuit) (api : CircuitAPI)
    (rs : list Receipt) (s0 s1 : StorageSlot) (rest : list StorageSlot) (b : Buffer) :
  succeeds (Define c api (mkDataInput rs (s0 :: s1 :: rest)) b) →
  Define c api (mkDataInput rs (s1 :: s0 :: rest)) b = (Fail PatternMismatch, b).
Proof.
  intros ([] & out & E).
  apply multichain_define_ok_inv in E as (C0 & C1 & _).
  cbn [Define multichainbalance.app]. unfold NewDataStream, GetUnderlying.
  cbn [StorageSlots lookup list_lookup].
  rewrite !(bind_ok (ret _) _ _ b b eq_refl).
  apply bind_fail, AssertIsEqual_fail. rewrite C1. by vm_compute.
Qed.

Lemma multichain_slot_order_witness :
  let c := multichainbalance.mkAppCircuit 0xCAFE 100 in
  Define c someAPI (mkDataInput []
    [mkStorageSlot 6 multichainbalance.USDC_BSC (0xCAFE + 9) 50;
     mkStorageSlot 5 multichainbalance.USDCEthereum (0xCAFE + 9) 70]) []
  = (Fail PatternMismatch, []).
Proof.
  intros c.
  apply (multichain_slot_order c someAPI []
           (mkStorageSlot 5 multichainbalance.USDCEthereum (0xCAFE + 9) 70)
           (mkStorageSlot 6 multichainbalance.USDC_BSC (0xCAFE + 9) 50) [] []).
  eexists _, _. by vm_compute.
Defined.
